(** * UnBind analysis service (services/analysisService.ts)

    A shallow embedding of the chunker, the clause extractor, the
    synthesizer, the embedding retriever and the two orchestrators
    [analyzeContract] and [simulateImpact], with the properties the
    specification states about them. *)

From Stdlib Require Import ZArith NArith List Lia Bool String Ascii.
From Stdlib Require Import DecimalString Floats Sorted.
From Stdlib Require Reals Lra.
From stdpp Require Import base list gmap.

Import ListNotations.

Set Warnings "-register-all".

(** ** Strings

    A JavaScript string is a sequence of UTF-16 code units. *)

Definition codeunit := N.
Definition jsstring := list codeunit.

(** An ASCII literal as a JavaScript string. *)
Definition lit (s : string) : jsstring :=
  map N_of_ascii (list_ascii_of_string s).

(** [String.prototype.substring(start, end)]: both indices are clamped to
    [0, length], and swapped when [start > end]. *)
Definition substring (s : jsstring) (start end_ : Z) : jsstring :=
  let len := Z.of_nat (length s) in
  let a := Z.min (Z.max start 0) len in
  let b := Z.min (Z.max end_ 0) len in
  let from := Z.min a b in
  let to := Z.max a b in
  take (Z.to_nat (to - from)) (drop (Z.to_nat from) s).

(** ** Chunker *)

Module Chunker.

(** The [for] loop of [chunkText]: [i] is the loop variable, [step] is
    [chunkSize - overlap] and [chunks] the array built so far.  The loop
    need not terminate, so it is run with fuel: [None] means the fuel ran
    out before the loop condition became false. *)
Fixpoint chunkText_loop (fuel : nat) (text : jsstring) (chunkSize step i : Z)
    (chunks : list jsstring) : option (list jsstring) :=
  if (i <? Z.of_nat (length text))%Z then
    match fuel with
    | O => None
    | S fuel' =>
        chunkText_loop fuel' text chunkSize step (i + step)%Z
          (chunks ++ [substring text i (i + chunkSize)%Z])
    end
  else Some chunks.

(** [chunkText(text, chunkSize, overlap)].  [chunkSize] and [overlap] are
    character counts; the module calls it with 4000/400 and 1500/200. *)
Definition chunkText (fuel : nat) (text : jsstring) (chunkSize overlap : nat)
    : option (list jsstring) :=
  if (Z.of_nat (length text) <=? Z.of_nat chunkSize)%Z then Some [text]
  else chunkText_loop fuel text (Z.of_nat chunkSize)
         (Z.of_nat chunkSize - Z.of_nat overlap)%Z 0%Z [].

Definition default_chunkSize : nat := 4000.
Definition default_overlap : nat := 400.

(** [chunkText] returns [chunks]: some amount of fuel is enough. *)
Definition chunkText_returns (text : jsstring) (chunkSize overlap : nat)
    (chunks : list jsstring) : Prop :=
  exists fuel, chunkText fuel text chunkSize overlap = Some chunks.

(** [chunkText] hangs: no amount of fuel is enough. *)
Definition chunkText_diverges (text : jsstring) (chunkSize overlap : nat) : Prop :=
  forall fuel, chunkText fuel text chunkSize overlap = None.

(** The windows the loop pushes, in closed form: [n] windows of width
    [chunkSize] starting at [i], [i + step], ... *)
Fixpoint windows (n : nat) (text : jsstring) (chunkSize step i : Z)
    : list jsstring :=
  match n with
  | O => []
  | S n' => substring text i (i + chunkSize)%Z
            :: windows n' text chunkSize step (i + step)%Z
  end.

(** Number of loop iterations left when the loop variable is [i]. *)
Definition window_count (len step i : Z) : nat :=
  Z.to_nat ((len - i + step - 1) / step)%Z.

(** The reconstruction of the specification: every chunk contributes its
    first [keep] characters, the last chunk is taken in full. *)
Fixpoint reassemble (keep : nat) (chunks : list jsstring) : jsstring :=
  match chunks with
  | [] => []
  | c :: rest =>
      match rest with
      | [] => c
      | _ :: _ => take keep c ++ reassemble keep rest
      end
  end.

(** The characters of a chunk that the next window covers as well, when
    windows start [step] characters apart. *)
Definition overlap_region (step : nat) (c : jsstring) : jsstring :=
  drop step c.

(** Every chunk that has a successor is [chunkSize] long and shares
    exactly [overlap] characters with it. *)
Definition exact_overlap (chunkSize overlap : nat) (chunks : list jsstring)
    : Prop :=
  forall k c c',
    chunks !! k = Some c -> chunks !! (S k) = Some c' ->
    length c = chunkSize /\
    length (overlap_region (chunkSize - overlap) c) = overlap /\
    overlap_region (chunkSize - overlap) c = take overlap c'.

End Chunker.

(** ** Text utilities used by the service *)

Module Text.

(** White space and line terminators, as [String.prototype.trim] sees them. *)
Definition is_whitespace (c : codeunit) : bool :=
  match c with
  | 9 | 10 | 11 | 12 | 13 | 32 | 160 | 5760
  | 8192 | 8193 | 8194 | 8195 | 8196 | 8197 | 8198 | 8199 | 8200 | 8201 | 8202
  | 8232 | 8233 | 8239 | 8287 | 12288 | 65279 => true
  | _ => false
  end%N.

Fixpoint trimStart (s : jsstring) : jsstring :=
  match s with
  | c :: s' => if is_whitespace c then trimStart s' else s
  | [] => []
  end.

Definition trimEnd (s : jsstring) : jsstring := rev (trimStart (rev s)).

Definition trim (s : jsstring) : jsstring := trimEnd (trimStart s).

(** [!s.trim()]: the empty string is the only falsy string. *)
Definition is_blank (s : jsstring) : bool :=
  match trim s with [] => true | _ :: _ => false end.

(** Comparison of a code unit with an ASCII letter under the [i] flag. *)
Definition same_letter (lower upper c : N) : bool :=
  (c =? lower)%N || (c =? upper)%N.

(** [s.replace(/^```(json)?/i, "")]: drop a leading fence, with its
    language tag when that tag is [json] in any letter case. *)
Definition strip_leading_fence (s : jsstring) : jsstring :=
  match s with
  | 96 :: 96 :: 96 :: rest =>
      match rest with
      | j :: s' :: o :: n :: rest' =>
          if same_letter 106 74 j && same_letter 115 83 s'
             && same_letter 111 79 o && same_letter 110 78 n
          then rest' else rest
      | _ => rest
      end
  | _ => s
  end%N.

(** [s.replace(/```$/i, "")]: without the [m] flag [$] is the end of the
    input, so only three backticks that end the string are dropped. *)
Definition strip_trailing_fence (s : jsstring) : jsstring :=
  match rev s with
  | 96 :: 96 :: 96 :: rest => rev rest
  | _ => s
  end%N.

(** The cleaning [tryParseJson] applies before [JSON.parse]. *)
Definition clean (text : jsstring) : jsstring :=
  trim (strip_trailing_fence (strip_leading_fence (trim text))).

(** [Array.prototype.join] on strings. *)
Fixpoint join (sep : jsstring) (parts : list jsstring) : jsstring :=
  match parts with
  | [] => []
  | p :: rest =>
      match rest with
      | [] => p
      | _ :: _ => p ++ sep ++ join sep rest
      end
  end.

(** A natural number in decimal, as template literals print a length
    or an array index. *)
Definition decimal (n : nat) : jsstring :=
  lit (NilZero.string_of_uint (Nat.to_uint n)).

End Text.

(** ** JSON values *)

Module Json.

(** What [JSON.parse] returns.  An object is the list of its own
    properties, keys distinct. *)
Inductive json : Type :=
| JNull
| JBool (b : bool)
| JNum (x : float)
| JStr (s : jsstring)
| JArr (items : list json)
| JObj (props : list (jsstring * json)).

Definition key_eqb (k1 k2 : jsstring) : bool :=
  bool_decide ((k1 : list N) = k2).

Fixpoint get_prop (props : list (jsstring * json)) (key : jsstring)
    : option json :=
  match props with
  | [] => None
  | (k, v) :: rest => if key_eqb k key then Some v else get_prop rest key
  end.

(** Defining a data property: an existing key keeps its place and gets
    the new value, a new key goes last. *)
Fixpoint set_prop (props : list (jsstring * json)) (key : jsstring) (v : json)
    : list (jsstring * json) :=
  match props with
  | [] => [(key, v)]
  | (k, v') :: rest =>
      if key_eqb k key then (k, v) :: rest
      else (k, v') :: set_prop rest key v
  end.

(** [v.key] for a value that is neither [null] nor [undefined]: [None]
    is [undefined].  Only objects carry properties read by this module
    ([clauses]); numbers, booleans, strings and arrays have none of
    that name. *)
Definition member (v : json) (key : jsstring) : option json :=
  match v with
  | JObj props => get_prop props key
  | _ => None
  end.

(** JavaScript truthiness. *)
Definition truthy (v : json) : bool :=
  match v with
  | JNull => false
  | JBool b => b
  | JNum x => negb (is_zero x || is_nan x)
  | JStr s => match s with [] => false | _ :: _ => true end
  | JArr _ | JObj _ => true
  end.

(** [Array.prototype.flat()] (depth 1): an array element is replaced by
    its elements, anything else stays. *)
Definition items_of (v : json) : list json :=
  match v with
  | JArr items => items
  | _ => [v]
  end.

Definition flat (xs : list json) : list json := concat (map items_of xs).

(** The own enumerable properties an object spread [{...v}] copies. *)
Definition spread (v : json) : list (jsstring * json) :=
  match v with
  | JObj props => props
  | JArr items => imap (fun i x => (Text.decimal i, x)) items
  | JStr s => imap (fun i c => (Text.decimal i, JStr [c])) s
  | JNull | JBool _ | JNum _ => []
  end.

End Json.

(** ** Outcomes, events and the effect monad *)

Module Effects.
Import Json.

Inductive error : Type :=
| Error (message : jsstring)   (* [new Error(message)] thrown by the service *)
| SyntaxError                  (* thrown by [JSON.parse] *)
| Thrown (id : nat).           (* whatever a collaborator throws *)

(** How an evaluation or a promise ends.  [Never] is a promise that never
    settles, or a loop that never leaves. *)
Inductive outcome (A : Type) : Type :=
| Returns (a : A)
| Throws (e : error)
| Never.
Arguments Returns {A} a.
Arguments Throws {A} e.
Arguments Never {A}.

(** A [try { body } catch { handler }] around a synchronous body. *)
Definition catch {A} (body : outcome A) (handler : error -> outcome A)
    : outcome A :=
  match body with
  | Throws e => handler e
  | Returns a => Returns a
  | Never => Never
  end.

(** The three prompts of the service.  Each constructor stands for the
    fixed message list built around its arguments; the third one is sent
    with model [llama-3.3-70b-versatile] and temperature 0.2. *)
Inductive chat_request : Type :=
| ExtractRequest (chunk role : jsstring)
| SynthesisRequest (clauseContext role : jsstring)
| ScenarioRequest (scenario context : jsstring).

(** What the outside world sees, in order. *)
Inductive event : Type :=
| Progress (message : jsstring)
| ChatCall (request : chat_request)
| EmbedCall (inputs : list jsstring).

(** Computations that log events and may throw. *)
Definition M (A : Type) : Type := list event -> outcome A * list event.

Definition ret {A} (a : A) : M A := fun log => (Returns a, log).

Definition bind {A B} (m : M A) (k : A -> M B) : M B := fun log =>
  match m log with
  | (Returns a, log') => k a log'
  | (Throws e, log') => (Throws e, log')
  | (Never, log') => (Never, log')
  end.

Definition throw {A} (e : error) : M A := fun log => (Throws e, log).

Definition settle {A} (o : outcome A) : M A := fun log => (o, log).

Definition emit (e : event) : M unit := fun log => (Returns tt, log ++ [e]).

(** [try { body } catch { handler }] around awaited code. *)
Definition try_catch {A} (body : M A) (handler : error -> M A) : M A :=
  fun log =>
    match body log with
    | (Throws e, log') => handler e log'
    | (Returns a, log') => (Returns a, log')
    | (Never, log') => (Never, log')
    end.

(** Calling an async function on every element of an array
    ([array.map(f)]): every call runs up to its first suspension, in array
    order, and leaves a promise.  The promise is represented by the
    outcome it will settle with. *)
Fixpoint start_all {A B} (f : A -> M B) (xs : list A) (log : list event)
    : list (outcome B) * list event :=
  match xs with
  | [] => ([], log)
  | x :: xs' =>
      let (p, log1) := f x log in
      let (ps, log2) := start_all f xs' log1 in
      (p :: ps, log2)
  end.

(** The values of [Promise.all] once no slot is empty. *)
Fixpoint all_filled {B} (values : list (option B)) : option (list B) :=
  match values with
  | [] => Some []
  | Some v :: rest =>
      match all_filled rest with
      | Some vs => Some (v :: vs)
      | None => None
      end
  | None :: _ => None
  end.

(** [Promise.all]: [order] lists the indices of the promises in the order
    in which they settle.  A fulfilled promise stores its value at its own
    index; the first rejection rejects the whole; the result is delivered
    once every slot is filled.  Promises that never settle, or that are
    absent from [order], leave the whole pending. *)
Fixpoint Promise_all_loop {B} (order : list nat) (promises : list (outcome B))
    (values : list (option B)) : outcome (list B) :=
  match all_filled values with
  | Some vs => Returns vs
  | None =>
      match order with
      | [] => Never
      | i :: order' =>
          match promises !! i with
          | Some (Returns v) =>
              Promise_all_loop order' promises (<[i := Some v]> values)
          | Some (Throws e) => Throws e
          | Some Never | None => Promise_all_loop order' promises values
          end
      end
  end.

Definition Promise_all {B} (order : list nat) (promises : list (outcome B))
    : outcome (list B) :=
  Promise_all_loop order promises (replicate (length promises) None).

(** The invariant of the slots of [Promise.all]: a filled slot holds the
    value of the promise at the same index. *)
Definition slots_agree {B} (promises : list (outcome B))
    (values : list (option B)) : Prop :=
  length values = length promises /\
  forall j v, values !! j = Some (Some v) -> promises !! j = Some (Returns v).

End Effects.

Declare Scope js_scope.
Delimit Scope js_scope with js.
Notation "'await' x <- m ;; k" := (Effects.bind m (fun x => k))
  (at level 10, x name, m at level 99, k at level 200) : js_scope.
Notation "'run' m ;; k" := (Effects.bind m (fun _ => k))
  (at level 10, m at level 99, k at level 200) : js_scope.

(** ** The analysis service *)

Module Service.
Import Text Json Effects Chunker.
Local Open Scope js_scope.

(** A chunk index with its similarity to the query. *)
Record scored : Type := { idx : nat; score : float }.

(** What the service takes from its surroundings: the two functions of
    [groqService], the built-in [JSON.parse] ([None] when it throws), the
    rendering of the analysed clauses into the synthesis prompt (the
    template literals of [synthesizeReport], which throw on a clause that
    is [null] or has no string conversion), and the order in which the
    engine's [Array.prototype.sort] leaves the scored chunks when the
    comparator is not consistent (ECMAScript leaves that order to the
    implementation; the sort reorders the items of the array, it adds
    and drops none).  The services answer from the calls made so far. *)
Record host : Type := {
  chatComplete : list event -> chat_request -> outcome jsstring;
  embedTexts : list event -> list jsstring -> outcome (list (list float));
  JSON_parse : jsstring -> option json;
  render_clauses : list json -> error + jsstring;
  engine_sort : list scored -> list scored;
  engine_sort_reorders : forall l, engine_sort l ≡ₚ l
}.

Definition call_chat (h : host) (request : chat_request) : M jsstring :=
  fun log => (chatComplete h log request, log ++ [ChatCall request]).

Definition call_embed (h : host) (inputs : list jsstring)
    : M (list (list float)) :=
  fun log => (embedTexts h log inputs, log ++ [EmbedCall inputs]).

(** The progress callback only records its message. *)
Definition onProgress (message : jsstring) : M unit := emit (Progress message).

Definition tryParseJson (h : host) (text : jsstring) : outcome json :=
  catch
    (let cleaned := clean text in
     match JSON_parse h cleaned with
     | Some v => Returns v
     | None => Throws SyntaxError
     end)
    (fun _ => Returns JNull).

(** [v?.key] *)
Definition optional_member (v : json) (key : jsstring) : option json :=
  match v with
  | JNull => None
  | _ => member v key
  end.

(** [v || d] *)
Definition or_else (v : option json) (d : json) : json :=
  match v with
  | Some x => if truthy x then x else d
  | None => d
  end.

(** [chunkText] as the orchestrators call it.  [length text] iterations
    are given to the loop; it needs more only when it never leaves
    (see [ChunkerFacts.chunkText_none_iff_diverges]). *)
Definition run_chunkText (text : jsstring) (chunkSize overlap : nat)
    : M (list jsstring) :=
  match chunkText (length text) text chunkSize overlap with
  | Some chunks => ret chunks
  | None => settle Never
  end.

Definition analyzeChunk (h : host) (chunk role : jsstring) : M json :=
  await output <- call_chat h (ExtractRequest chunk role);;
  await parsed <- settle (tryParseJson h output);;
  ret (or_else (optional_member parsed (lit "clauses")) (JArr [])).

Definition synthesizeReport (h : host) (clauses : list json) (role : jsstring)
    : M json :=
  await clauseContext <-
    settle (match render_clauses h clauses with
            | inl e => Throws e
            | inr s => Returns s
            end);;
  await output <- call_chat h (SynthesisRequest clauseContext role);;
  await parsed <- settle (tryParseJson h output);;
  if truthy parsed then ret parsed
  else throw (Error (lit "Failed to parse synthesis JSON")).

Definition no_clauses_message : jsstring :=
  lit "No legal clauses were identified in the document. It might be too short or in an unsupported format.".

(** [order] is the order in which the extractor calls complete. *)
Definition analyzeContract (h : host) (order : list nat)
    (documentText role : jsstring) : M json :=
  run onProgress (lit "Chunking document...");;
  await chunks <- run_chunkText documentText default_chunkSize default_overlap;;
  run onProgress (lit "Analyzing " ++ decimal (length chunks)
                  ++ lit " document section(s)...");;
  await promises <-
    (fun log =>
       let (ps, log') :=
         start_all (fun chunk => analyzeChunk h chunk role) chunks log in
       (Returns ps, log'));;
  await chunkResults <- settle (Promise_all order promises);;
  let allClauses := flat chunkResults in
  if (length allClauses =? 0)%nat then throw (Error no_clauses_message)
  else
    run onProgress (lit "Synthesizing final report...");;
    await finalReport <- synthesizeReport h allClauses role;;
    ret (JObj (set_prop (spread finalReport) (lit "clauses") (JArr allClauses))).

(** *** Vector retrieval for the impact simulator *)

(** The three sums of the loop of [cosineSimilarity].  An index past
    the end of [b] reads [undefined], which is [NaN] in arithmetic. *)
Definition cosine_step (sums : float * float * float) (va vb : float)
    : float * float * float :=
  let '(dot, na, nb) := sums in
  (dot + va * vb, na + va * va, nb + vb * vb)%float.

Definition cosine_sums (a b : list float) : float * float * float :=
  fold_left
    (fun sums i => cosine_step sums (nth i a nan) (nth i b nan))
    (seq 0 (length a)) (0, 0, 0)%float.

Definition cosineSimilarity (a b : list float) : float :=
  let '(dot, na, nb) := cosine_sums a b in
  let product := (sqrt na * sqrt nb)%float in
  let denom := if is_zero product || is_nan product then 1%float else product in
  (dot / denom)%float.

(** A vector of zeros (of either sign), a vector without [NaN] and
    infinities. *)
Definition zero_vector (v : list float) : bool := forallb is_zero v.
Definition finite_vector (v : list float) : bool := forallb is_finite v.

(** Insertion into a list sorted with the comparator
    [(a, b) => b.score - a.score], behind the elements that compare
    equal: an element moves behind the next one only when the comparator
    is positive. *)
Fixpoint insert_scored (x : scored) (sorted : list scored) : list scored :=
  match sorted with
  | [] => [x]
  | y :: rest =>
      if (0 <? score y - score x)%float then y :: insert_scored x rest
      else x :: sorted
  end.

(** [sort((a, b) => b.score - a.score)].  When no score is [NaN] the
    comparator is consistent (a [NaN] difference arises only between two
    infinities of the same sign, and counts as 0), and the result is that
    of the stable sort.  A [NaN] score makes the comparator return
    [NaN], read as 0, against every other element; the comparator is
    then in general not consistent, and the order is the engine's. *)
Definition sort_scored (h : host) (l : list scored) : list scored :=
  if existsb (fun s => is_nan (score s)) l then engine_sort h l
  else foldr insert_scored [] l.

(** The ranking of [vectorRetrieveRelevantChunks], from the vectors to
    the selected chunks.  There are as many chunk vectors as chunks, so
    the index read [chunks[s.idx]] is in range for every item of the
    array that was sorted. *)
Definition select_chunks (h : host) (chunks : list jsstring)
    (vectors : list (list float)) (topK : nat) : list jsstring :=
  let queryVec := nth (length vectors - 1) vectors [] in
  let chunkVecs := take (length vectors - 1) vectors in
  let scored :=
    sort_scored h
      (imap (fun idx vec =>
               {| idx := idx; score := cosineSimilarity vec queryVec |})
            chunkVecs) in
  map (fun s => nth (idx s) chunks [])
      (take (Nat.min topK (length scored)) scored).

Definition vectorRetrieveRelevantChunks (h : host) (chunks : list jsstring)
    (query : jsstring) (topK : nat) : M (list jsstring) :=
  try_catch
    (let inputs := chunks ++ [query] in
     await vectors <- call_embed h inputs;;
     if negb (length vectors =? length inputs)%nat then ret chunks
     else
       let selected := select_chunks h chunks vectors topK in
       ret (if (0 <? length selected)%nat then selected else chunks))
    (fun _ => ret chunks).

Definition no_scenario_message : jsstring :=
  lit "Please enter a scenario to simulate.".

Definition nothing_found_message : jsstring :=
  lit "Could not find any information in the document relevant to your scenario. Please try rephrasing your question or check if the topic is covered in the contract.".

(** The part of [simulateImpact] that follows retrieval. *)
Definition answer_from (h : host) (scenario : jsstring)
    (relevantChunks : list jsstring) : M jsstring :=
  if (length relevantChunks =? 0)%nat then ret nothing_found_message
  else
    let context := join [10; 10; 45; 45; 45; 10; 10]%N relevantChunks in
    call_chat h (ScenarioRequest scenario context).

Definition simulateImpact (h : host) (documentText scenario : jsstring)
    : M jsstring :=
  if is_blank scenario then ret no_scenario_message
  else
    await chunks <- run_chunkText documentText 1500 200;;
    await relevantChunks <- vectorRetrieveRelevantChunks h chunks scenario 6;;
    answer_from h scenario relevantChunks.

(** *** Reading the log *)

(** The chunks handed to the extractor, one per call. *)
Definition extractor_calls (log : list event) : list jsstring :=
  omap (fun e => match e with
                 | ChatCall (ExtractRequest chunk _) => Some chunk
                 | _ => None
                 end) log.

(** All calls to the chat model. *)
Definition chat_calls (log : list event) : list chat_request :=
  omap (fun e => match e with ChatCall r => Some r | _ => None end) log.

End Service.

(** ** The similarity formula of the specification

    The dot product divided by the product of the two Euclidean norms,
    the denominator floored to 1, written once for any arithmetic: the
    sums run over the entries from the first to the last, starting from
    zero. *)

Module Formula.

(** The operations the formula uses on numbers of type [T];
    [num_falsy d] is the test behind [d || 1]. *)
Record arithmetic (T : Type) : Type := {
  num_zero : T;
  num_one : T;
  num_add : T -> T -> T;
  num_mul : T -> T -> T;
  num_div : T -> T -> T;
  num_sqrt : T -> T;
  num_falsy : T -> bool
}.
Arguments num_zero {T} _.
Arguments num_one {T} _.
Arguments num_add {T} _ _ _.
Arguments num_mul {T} _ _ _.
Arguments num_div {T} _ _ _.
Arguments num_sqrt {T} _ _.
Arguments num_falsy {T} _ _.

Section Over.
Context {T : Type} (A : arithmetic T).

Definition dot_product (a b : list T) : T :=
  fold_left (fun acc xy => num_add A acc (num_mul A (fst xy) (snd xy)))
            (combine a b) (num_zero A).

Definition sum_of_squares (a : list T) : T :=
  fold_left (fun acc x => num_add A acc (num_mul A x x)) a (num_zero A).

Definition norm (a : list T) : T := num_sqrt A (sum_of_squares a).

Definition floored_to_one (d : T) : T :=
  if num_falsy A d then num_one A else d.

Definition cosine_formula (a b : list T) : T :=
  num_div A (dot_product a b) (floored_to_one (num_mul A (norm a) (norm b))).

End Over.

(** JavaScript numbers: binary64 operations; zero of either sign and
    [NaN] are falsy. *)
Definition binary64 : arithmetic float := {|
  num_zero := 0%float;
  num_one := 1%float;
  num_add := PrimFloat.add;
  num_mul := PrimFloat.mul;
  num_div := PrimFloat.div;
  num_sqrt := PrimFloat.sqrt;
  num_falsy := fun d => is_zero d || is_nan d
|}.

End Formula.

(** ** The similarity formula in exact arithmetic

    The loop and the quotient of [Service.cosineSimilarity], evaluated
    over the real numbers instead of binary64. *)

Module Exact.
Import Reals.
Local Open Scope R_scope.

(** The real numbers: exact operations; only zero is falsy. *)
Definition reals : Formula.arithmetic R := {|
  Formula.num_zero := 0;
  Formula.num_one := 1;
  Formula.num_add := Rplus;
  Formula.num_mul := Rmult;
  Formula.num_div := Rdiv;
  Formula.num_sqrt := sqrt;
  Formula.num_falsy := fun d => if Req_dec_T d 0 then true else false
|}.

Definition cosine_step_exact (sums : R * R * R) (va vb : R) : R * R * R :=
  let '(dot, na, nb) := sums in
  (dot + va * vb, na + va * va, nb + vb * vb).

Definition cosine_sums_exact (a b : list R) : R * R * R :=
  fold_left
    (fun sums i => cosine_step_exact sums (nth i a 0) (nth i b 0))
    (seq 0 (length a)) (0, 0, 0).

Definition cosineSimilarity_exact (a b : list R) : R :=
  let '(dot, na, nb) := cosine_sums_exact a b in
  let product := sqrt na * sqrt nb in
  let denom := if Req_dec_T product 0 then 1 else product in
  dot / denom.

(** The Cauchy-Schwarz invariant of the three sums. *)
Definition bounded_sums (sums : R * R * R) : Prop :=
  let '(dot, na, nb) := sums in
  0 <= na /\ 0 <= nb /\ dot * dot <= na * nb.

End Exact.

(** ** Sample surroundings and documents *)

Module Examples.
Import Text Json Effects Chunker Service.

(** A parser that accepts every text and wraps it as the only clause. *)
Definition wrap_as_clause (s : jsstring) : option json :=
  Some (JObj [(lit "clauses", JArr [JStr s])]).

(** The chat model answers an extraction with the first character of the
    chunk and anything else with [s]; embedding fails. *)
Definition echo_host : host := {|
  chatComplete := fun _ request =>
    match request with
    | ExtractRequest chunk _ => Returns (take 1 chunk)
    | _ => Returns (lit "s")
    end;
  embedTexts := fun _ _ => Throws (Thrown 0);
  JSON_parse := wrap_as_clause;
  render_clauses := fun _ => inr (lit "context");
  engine_sort := fun l => l;
  engine_sort_reorders := fun l => Permutation_refl l
|}.

(** As [echo_host], but the first call to the chat model fails. *)
Definition first_call_fails_host : host := {|
  chatComplete := fun log request =>
    match chat_calls log with
    | [] => Throws (Thrown 1)
    | _ :: _ => chatComplete echo_host log request
    end;
  embedTexts := embedTexts echo_host;
  JSON_parse := wrap_as_clause;
  render_clauses := render_clauses echo_host;
  engine_sort := engine_sort echo_host;
  engine_sort_reorders := engine_sort_reorders echo_host
|}.

(** The embedding service returns no vector at all. *)
Definition no_vectors_host : host := {|
  chatComplete := chatComplete echo_host;
  embedTexts := fun _ _ => Returns [];
  JSON_parse := wrap_as_clause;
  render_clauses := render_clauses echo_host;
  engine_sort := engine_sort echo_host;
  engine_sort_reorders := engine_sort_reorders echo_host
|}.

(** The embedding service returns the vector [[1]] for every input, the
    chat model the text [answer]. *)
Definition answering_host : host := {|
  chatComplete := fun _ _ => Returns (lit "answer");
  embedTexts := fun _ inputs => Returns (map (fun _ => [1%float]) inputs);
  JSON_parse := wrap_as_clause;
  render_clauses := render_clauses echo_host;
  engine_sort := engine_sort echo_host;
  engine_sort_reorders := engine_sort_reorders echo_host
|}.

Definition doc_3000 : jsstring := repeat 97%N 3000.
Definition doc_9000 : jsstring := repeat 97%N (3 * 3000).

(** 4001 characters, two chunks: the first starts with [a], the second
    holds [b] only. *)
Definition doc_two_chunks : jsstring := repeat 97%N 3600 ++ repeat 98%N 401.

(** What [analyzeContract] returns for [doc_two_chunks] with [echo_host]. *)
Definition two_chunks_response : json :=
  JObj [(lit "clauses", JArr [JStr (lit "a"); JStr (lit "b")])].

End Examples.

(** ** More sample surroundings *)

Module MoreExamples.
Import Text Json Effects Chunker Service Examples.

(** The chat model answers, but nothing it says parses. *)
Definition unparseable_host : host := {|
  chatComplete := chatComplete echo_host;
  embedTexts := embedTexts echo_host;
  JSON_parse := fun _ => None;
  render_clauses := render_clauses echo_host;
  engine_sort := engine_sort echo_host;
  engine_sort_reorders := engine_sort_reorders echo_host
|}.

(** The chat model throws; the embedding service answers. *)
Definition chat_down_host : host := {|
  chatComplete := fun _ _ => Throws (Thrown 7);
  embedTexts := embedTexts answering_host;
  JSON_parse := wrap_as_clause;
  render_clauses := render_clauses echo_host;
  engine_sort := engine_sort echo_host;
  engine_sort_reorders := engine_sort_reorders echo_host
|}.

(** The chat model replies with the empty text to its first two calls
    and with [x] to every later one; the empty text does not parse. *)
Definition late_host : host := {|
  chatComplete := fun log _ =>
    match chat_calls log with
    | [] | [_] => Returns []
    | _ :: _ :: _ => Returns (lit "x")
    end;
  embedTexts := embedTexts echo_host;
  JSON_parse := fun s =>
    match s with
    | [] => None
    | _ :: _ => wrap_as_clause s
    end;
  render_clauses := render_clauses echo_host;
  engine_sort := engine_sort echo_host;
  engine_sort_reorders := engine_sort_reorders echo_host
|}.

(** The embedding service returns [[NaN]] for the first input and [[1]]
    for the others, so that the first chunk has the score [NaN]; the
    engine then leaves the scored chunks in reverse order. *)
Definition reversing_host : host := {|
  chatComplete := chatComplete answering_host;
  embedTexts := fun _ inputs =>
    Returns (imap (fun i _ => if (i =? 0)%nat then [nan] else [1%float]) inputs);
  JSON_parse := wrap_as_clause;
  render_clauses := render_clauses echo_host;
  engine_sort := @rev scored;
  engine_sort_reorders := fun l => Permutation_sym (Permutation_rev l)
|}.

End MoreExamples.

(** ** The log of an analysis *)

Module AnalysisLog.
Import Text Json Effects Chunker Service.

(** The log once [analyzeContract] has announced its [n] sections. *)
Definition announced (log : list event) (n : nat) : list event :=
  (log ++ [Progress (lit "Chunking document...")])
  ++ [Progress (lit "Analyzing " ++ decimal n ++ lit " document section(s)...")].

(** The extractor calls for the given chunks, in order. *)
Definition extractor_events (role : jsstring) (chunks : list jsstring)
    : list event :=
  map (fun chunk => ChatCall (ExtractRequest chunk role)) chunks.

(** The log at the moment the extractor call for chunk [i] is made. *)
Definition issue_log (log : list event) (role : jsstring)
    (chunks : list jsstring) (i : nat) : list event :=
  announced log (length chunks) ++ extractor_events role (take i chunks).

(** What can follow the extractor calls in the log. *)
Inductive synthesis_tail (role : jsstring) : list event -> Prop :=
| tail_none : synthesis_tail role []
| tail_announced :
    synthesis_tail role [Progress (lit "Synthesizing final report...")]
| tail_called (clauseContext : jsstring) :
    synthesis_tail role
      [Progress (lit "Synthesizing final report...");
       ChatCall (SynthesisRequest clauseContext role)].

End AnalysisLog.

(** ** The account and history service (services/authService.ts)

    The service keeps three JSON texts in the browser: the accounts and
    the saved analyses in [localStorage], the signed-in user in
    [sessionStorage].  A text written with [JSON.stringify] is read back
    by [JSON.parse] as the value that was written, so an entry is modelled
    by the value it holds; [Unreadable] is an entry that is the empty
    string or that [JSON.parse] rejects.  Writing is taken to succeed. *)

Module Auth.
Import Text Effects.

Record User : Type := {
  id : jsstring;
  username : jsstring;
  email : jsstring;
  picture : option jsstring
}.

(** [User & { passwordHash: string }] *)
Record StoredUser : Type := {
  account : User;
  passwordHash : jsstring
}.

(** [StoredAnalysis], over the type [R] of analysis results. *)
Record StoredAnalysis (R : Type) : Type := {
  analysisId : jsstring;
  userId : jsstring;
  fileName : jsstring;
  analysisDate : jsstring;
  analysisResult : R;
  documentText : jsstring
}.
Arguments analysisId {R} _.
Arguments userId {R} _.
Arguments fileName {R} _.
Arguments analysisDate {R} _.
Arguments analysisResult {R} _.
Arguments documentText {R} _.

(** An item of [localStorage] or [sessionStorage]: missing, a text that
    [JSON.parse] rejects, or the JSON text of a value.  The service is
    the only writer of its three keys and writes with [JSON.stringify];
    a stored value is represented by the value itself, and a write is
    taken to succeed. *)
Inductive item (A : Type) : Type :=
| Absent
| Unreadable
| Holds (a : A).
Arguments Absent {A}.
Arguments Unreadable {A}.
Arguments Holds {A} a.

Record browser (R : Type) : Type := {
  users_item : item (list StoredUser);
  analyses_item : item (list (StoredAnalysis R));
  session_item : item User
}.
Arguments users_item {R} _.
Arguments analyses_item {R} _.
Arguments session_item {R} _.

(** Built-ins the service relies on: [String.prototype.toLowerCase],
    [Date.prototype.toISOString] of a time in milliseconds, and the time
    [new Date(text).getTime()] of a date text (the stored dates are
    [toISOString] texts, whose time is a number). *)
Record platform : Type := {
  toLowerCase : jsstring -> jsstring;
  toISOString : N -> jsstring;
  getTime : jsstring -> Z
}.

Definition decimalN (n : N) : jsstring :=
  lit (NilZero.string_of_uint (N.to_uint n)).

(** [a.toLowerCase() === b.toLowerCase()] *)
Definition same_lower (pl : platform) (a b : jsstring) : bool :=
  bool_decide ((toLowerCase pl a : list N) = toLowerCase pl b).

(** [a === b] on strings *)
Definition same_text (a b : jsstring) : bool :=
  bool_decide ((a : list N) = b).

Definition getUsers {R} (b : browser R) : list StoredUser :=
  match users_item b with
  | Holds users => users
  | Absent | Unreadable => []
  end.

Definition saveUsers {R} (users : list StoredUser) (b : browser R) : browser R :=
  {| users_item := Holds users;
     analyses_item := analyses_item b;
     session_item := session_item b |}.

Definition setSession {R} (u : User) (b : browser R) : browser R :=
  {| users_item := users_item b;
     analyses_item := analyses_item b;
     session_item := Holds u |}.

Definition username_taken_message : jsstring :=
  lit "This username is already taken.".
Definition email_exists_message : jsstring :=
  lit "An account with this email already exists.".
Definition invalid_login_message : jsstring :=
  lit "Invalid email or password.".

(** [signup(username, email, password)], called at time [now]. *)
Definition signup {R} (pl : platform) (now : N)
    (username0 email0 password : jsstring) (b : browser R)
    : outcome User * browser R :=
  let users := getUsers b in
  match find (fun u => same_lower pl (username (account u)) username0) users with
  | Some _ => (Throws (Error username_taken_message), b)
  | None =>
      match find (fun u => same_lower pl (email (account u)) email0) users with
      | Some _ => (Throws (Error email_exists_message), b)
      | None =>
          let passwordHash := lit "hashed_" ++ password in
          let newUser :=
            {| id := lit "user_" ++ decimalN now;
               username := username0;
               email := email0;
               picture := None |} in
          let users' :=
            users ++ [{| account := newUser; passwordHash := passwordHash |}] in
          (Returns newUser, setSession newUser (saveUsers users' b))
      end
  end.

(** [login(email, password)] *)
Definition login {R} (pl : platform) (email0 password : jsstring)
    (b : browser R) : outcome User * browser R :=
  let users := getUsers b in
  match find (fun u => same_lower pl (email (account u)) email0) users with
  | Some user =>
      if same_text (passwordHash user) (lit "hashed_" ++ password) then
        let userToStore :=
          {| id := id (account user);
             username := username (account user);
             email := email (account user);
             picture := picture (account user) |} in
        (Returns userToStore, setSession userToStore b)
      else (Throws (Error invalid_login_message), b)
  | None => (Throws (Error invalid_login_message), b)
  end.

Definition logout {R} (b : browser R) : browser R :=
  {| users_item := users_item b;
     analyses_item := analyses_item b;
     session_item := Absent |}.

(** [getCurrentUser()]: [None] is [null]. *)
Definition getCurrentUser {R} (b : browser R) : option User :=
  match session_item b with
  | Holds u => Some u
  | Absent | Unreadable => None
  end.

Definition getAnalyses {R} (b : browser R) : list (StoredAnalysis R) :=
  match analyses_item b with
  | Holds analyses => analyses
  | Absent | Unreadable => []
  end.

Definition saveAllAnalyses {R} (analyses : list (StoredAnalysis R))
    (b : browser R) : browser R :=
  {| users_item := users_item b;
     analyses_item := Holds analyses;
     session_item := session_item b |}.

(** [saveAnalysis(userId, analysisResult, fileName, documentText)]:
    [now] is what [Date.now()] returns for the id, [today] the time of
    the [new Date()] that follows. *)
Definition saveAnalysis {R} (pl : platform) (now today : N)
    (userId0 : jsstring) (analysisResult0 : R)
    (fileName0 documentText0 : jsstring) (b : browser R)
    : StoredAnalysis R * browser R :=
  let allAnalyses := getAnalyses b in
  let newAnalysis :=
    {| analysisId := lit "analysis_" ++ decimalN now;
       userId := userId0;
       fileName := fileName0;
       analysisDate := toISOString pl today;
       analysisResult := analysisResult0;
       documentText := documentText0 |} in
  (newAnalysis, saveAllAnalyses (allAnalyses ++ [newAnalysis]) b).

(** The stable sort with comparator
    [(a, b) => time(b.analysisDate) - time(a.analysisDate)]: an element
    moves behind the next one only when the comparator is positive. *)
Fixpoint insert_by_date {R} (pl : platform) (x : StoredAnalysis R)
    (sorted : list (StoredAnalysis R)) : list (StoredAnalysis R) :=
  match sorted with
  | [] => [x]
  | y :: rest =>
      if (0 <? getTime pl (analysisDate y) - getTime pl (analysisDate x))%Z
      then y :: insert_by_date pl x rest
      else x :: sorted
  end.

Definition sort_by_date {R} (pl : platform) (l : list (StoredAnalysis R))
    : list (StoredAnalysis R) :=
  foldr (insert_by_date pl) [] l.

(** [getUserAnalyses(userId)] *)
Definition getUserAnalyses {R} (pl : platform) (userId0 : jsstring)
    (b : browser R) : list (StoredAnalysis R) :=
  sort_by_date pl
    (filter (fun a => same_text (userId a) userId0 = true) (getAnalyses b)).

(** Newest first. *)
Definition newest_first {R} (pl : platform) (l : list (StoredAnalysis R))
    : Prop :=
  forall i j a1 a2,
    i <= j -> l !! i = Some a1 -> l !! j = Some a2 ->
    (getTime pl (analysisDate a2) <= getTime pl (analysisDate a1))%Z.

(** A platform for examples: lower case on ASCII letters, a time printed
    as its decimal, a date text read as its length. *)
Definition ascii_lower (c : codeunit) : codeunit :=
  if ((65 <=? c) && (c <=? 90))%N then (c + 32)%N else c.

Definition sample_platform : platform := {|
  toLowerCase := map ascii_lower;
  toISOString := decimalN;
  getTime := fun t => Z.of_nat (length t)
|}.

Definition empty_browser : browser unit := {|
  users_item := Absent;
  analyses_item := Absent;
  session_item := Absent
|}.

End Auth.

(** ** Sample accounts *)

Module AuthExamples.
Import Text Effects Auth.

(** Ann signs up at time 5 in an empty browser. *)
Definition ann : User := {|
  id := lit "user_5";
  username := lit "Ann";
  email := lit "ann@example.org";
  picture := None
|}.

Definition ann_signed_up : browser unit :=
  snd (signup sample_platform 5 (lit "Ann") (lit "ann@example.org") (lit "secret")
         empty_browser).

(** Bob signs up after her, at time 6. *)
Definition bob : User := {|
  id := lit "user_6";
  username := lit "Bob";
  email := lit "bob@example.org";
  picture := None
|}.

Definition ann_and_bob : browser unit :=
  snd (signup sample_platform 6 (lit "Bob") (lit "bob@example.org") (lit "pw")
         ann_signed_up).

End AuthExamples.

(** ** Clauses as the views receive them (types.ts) *)

Module Types.

Inductive RiskLevel : Type := Low | Medium | High | Negligible.

Record ClauseAnalysis : Type := {
  clauseText : jsstring;
  simplifiedExplanation : jsstring;
  riskLevel : RiskLevel;
  riskReason : jsstring;
  negotiationSuggestion : jsstring;
  suggestedRewrite : option jsstring
}.

(** [a || d] for an optional string [a]: [undefined] and the empty string
    are falsy. *)
Definition text_or (a : option jsstring) (d : jsstring) : jsstring :=
  match a with
  | Some (c :: s) => c :: s
  | Some [] | None => d
  end.

End Types.

(** ** The highlighted document (components/DocumentView.tsx) *)

Module DocumentView.
Import Types.

(** [a.startsWith(b)] on code units. *)
Fixpoint starts_with (text pattern : jsstring) : bool :=
  match pattern, text with
  | [], _ => true
  | _ :: _, [] => false
  | p :: pattern', c :: text' => (p =? c)%N && starts_with text' pattern'
  end.

(** [text.indexOf(pattern)]: the first position at which [pattern]
    occurs, [None] for -1. *)
Fixpoint indexOf (text pattern : jsstring) : option nat :=
  if starts_with text pattern then Some 0
  else
    match text with
    | [] => None
    | _ :: text' => option_map S (indexOf text' pattern)
    end.

(** A clause with its position in the clause list and in the document. *)
Record located : Type := {
  clause : ClauseAnalysis;
  originalIndex : nat;
  start : nat
}.

(** [string | (ClauseAnalysis & { originalIndex: number })] *)
Inductive DocumentPart : Type :=
| Plain (text : jsstring)
| Highlight (c : located).

(** The [map] and [filter] steps: clauses whose text is not found are
    dropped. *)
Definition locate (documentText : jsstring) (clauses : list ClauseAnalysis)
    : list located :=
  omap (fun c => c)
    (imap (fun index c =>
             match indexOf documentText (clauseText c) with
             | Some i => Some {| clause := c; originalIndex := index; start := i |}
             | None => None
             end) clauses).

(** The stable sort with comparator [(a, b) => a.start - b.start]. *)
Fixpoint insert_by_start (x : located) (sorted : list located) : list located :=
  match sorted with
  | [] => [x]
  | y :: rest =>
      if (0 <? Z.of_nat (start x) - Z.of_nat (start y))%Z
      then y :: insert_by_start x rest
      else x :: sorted
  end.

Definition sort_by_start (l : list located) : list located :=
  foldr insert_by_start [] l.

(** One round of the [forEach]: the state is the parts pushed so far and
    [lastIndex]. *)
Definition push_clause (documentText : jsstring)
    (state : list DocumentPart * nat) (c : located) : list DocumentPart * nat :=
  let '(result, lastIndex) := state in
  let result1 :=
    if (lastIndex <? start c)%nat
    then result ++ [Plain (substring documentText (Z.of_nat lastIndex)
                             (Z.of_nat (start c)))]
    else result in
  (result1 ++ [Highlight c], start c + length (clauseText (clause c))).

(** The [parts] of [DocumentView]. *)
Definition parts (documentText : jsstring) (clauses : list ClauseAnalysis)
    : list DocumentPart :=
  match clauses with
  | [] => [Plain documentText]
  | _ :: _ =>
      let sortedClauses := sort_by_start (locate documentText clauses) in
      let '(result, lastIndex) :=
        fold_left (push_clause documentText) sortedClauses ([], 0) in
      if (lastIndex <? length documentText)%nat
      then result ++ [Plain (substring documentText (Z.of_nat lastIndex)
                               (Z.of_nat (length documentText)))]
      else result
  end.

(** The text a part shows. *)
Definition part_text (part : DocumentPart) : jsstring :=
  match part with
  | Plain text => text
  | Highlight c => clauseText (clause c)
  end.

(** What the view displays, from top to bottom. *)
Definition displayed (ps : list DocumentPart) : jsstring :=
  concat (map part_text ps).

(** No located clause starts before the end of the one before it. *)
Fixpoint separated (lastIndex : nat) (l : list located) : Prop :=
  match l with
  | [] => True
  | c :: rest =>
      lastIndex <= start c
      /\ separated (start c + length (clauseText (clause c))) rest
  end.

(** Each clause sits at its [start] in the document. *)
Definition sits_in (documentText : jsstring) (c : located) : Prop :=
  take (length (clauseText (clause c))) (drop (start c) documentText)
  = clauseText (clause c)
  /\ start c + length (clauseText (clause c)) <= length documentText.

Definition sample_clause (text : string) : ClauseAnalysis := {|
  clauseText := lit text;
  simplifiedExplanation := [];
  riskLevel := Negligible;
  riskReason := [];
  negotiationSuggestion := [];
  suggestedRewrite := None
|}.

End DocumentView.

(** ** Clause resolutions (NegotiateView and its RiskClauseCard) *)

Module Negotiate.
Import Types.

Inductive Choice : Type := ai | user | original.

Record ClauseResolution : Type := {
  clauseIndex : nat;
  choice : Choice;
  userText : option jsstring;
  isResolved : bool
}.

(** The two pieces of state: the resolutions and the texts typed so
    far, keyed by clause index.  A handler runs on the state of the
    latest render, and the view is rendered again after each one. *)
Record state : Type := {
  resolutions : list ClauseResolution;
  userInputs : gmap nat jsstring
}.

Definition getResolution (resolutions0 : list ClauseResolution) (index : nat)
    : ClauseResolution :=
  match find (fun r => (clauseIndex r =? index)%nat) resolutions0 with
  | Some r => r
  | None =>
      {| clauseIndex := index; choice := ai; userText := None;
         isResolved := false |}
  end.

(** The update [updateResolution] hands to [setResolutions]. *)
Definition updateResolution (index : nat) (choice0 : Choice)
    (userText0 : option jsstring) (prev : list ClauseResolution)
    : list ClauseResolution :=
  match find (fun r => (clauseIndex r =? index)%nat) prev with
  | Some _ =>
      map (fun r =>
             if (clauseIndex r =? index)%nat
             then {| clauseIndex := clauseIndex r; choice := choice0;
                     userText := userText0; isResolved := true |}
             else r) prev
  | None =>
      prev ++ [{| clauseIndex := index; choice := choice0;
                  userText := userText0; isResolved := true |}]
  end.

(** The update [handleChoiceChange] hands to [setResolutions]. *)
Definition handleChoiceChange (index : nat) (choice0 : Choice)
    (prev : list ClauseResolution) : list ClauseResolution :=
  match find (fun r => (clauseIndex r =? index)%nat) prev with
  | Some _ =>
      map (fun r =>
             if (clauseIndex r =? index)%nat
             then {| clauseIndex := clauseIndex r; choice := choice0;
                     userText := userText r; isResolved := false |}
             else r) prev
  | None =>
      prev ++ [{| clauseIndex := index; choice := choice0;
                  userText := None; isResolved := false |}]
  end.

Definition handleUserInputChange (index : nat) (text : jsstring) (s : state)
    : state :=
  {| resolutions := resolutions s;
     userInputs := <[index := text]> (userInputs s) |}.

(** [handleChoiceChange] on the whole state. *)
Definition choose (index : nat) (choice0 : Choice) (s : state) : state :=
  {| resolutions := handleChoiceChange index choice0 (resolutions s);
     userInputs := userInputs s |}.

(** A typed text that is present and not empty. *)
Definition typed_text (s : state) (index : nat) : option jsstring :=
  match userInputs s !! index with
  | Some (c :: t) => Some (c :: t)
  | Some [] | None => None
  end.

Definition confirmChoice (index : nat) (s : state) : state :=
  let resolution := getResolution (resolutions s) index in
  match choice resolution with
  | user =>
      match typed_text s index with
      | Some text =>
          {| resolutions := updateResolution index user (Some text) (resolutions s);
             userInputs := userInputs s |}
      | None => s
      end
  | ai =>
      {| resolutions := updateResolution index ai None (resolutions s);
         userInputs := userInputs s |}
  | original =>
      {| resolutions := updateResolution index original None (resolutions s);
         userInputs := userInputs s |}
  end.

Definition getFinalText (s : state) (c : ClauseAnalysis) (index : nat)
    : jsstring :=
  match choice (getResolution (resolutions s) index) with
  | ai => text_or (suggestedRewrite c) (clauseText c)
  | user => text_or (userInputs s !! index) (clauseText c)
  | original => clauseText c
  end.

End Negotiate.

(** ** Properties of the chunker *)

Module ChunkerFacts.
Import Chunker.

Lemma substring_take_drop (s : jsstring) (a b : Z) :
  (0 <= a <= b)%Z ->
  substring s a b = take (Z.to_nat (b - a)) (drop (Z.to_nat a) s).
Proof.
  intros Hab. unfold substring.
  set (len := Z.of_nat (length s)).
  assert (Hlen : (0 <= len)%Z) by (unfold len; lia).
  destruct (Z_le_gt_dec a len) as [Ha | Ha].
  - replace (Z.min (Z.min (Z.max a 0) len) (Z.min (Z.max b 0) len)) with a by lia.
    replace (Z.max (Z.min (Z.max a 0) len) (Z.min (Z.max b 0) len))
      with (Z.min b len) by lia.
    destruct (Z_le_gt_dec b len) as [Hb | Hb].
    + now replace (Z.min b len) with b by lia.
    + replace (Z.min b len) with len by lia.
      rewrite !take_ge; try reflexivity;
        rewrite length_drop; unfold len in *; lia.
  - replace (Z.min (Z.min (Z.max a 0) len) (Z.min (Z.max b 0) len)) with len by lia.
    replace (Z.max (Z.min (Z.max a 0) len) (Z.min (Z.max b 0) len)) with len by lia.
    rewrite !drop_ge by (unfold len in *; lia).
    now rewrite !take_nil.
Qed.

Lemma window_count_done (len step i : Z) :
  (0 < step)%Z -> (len <= i)%Z -> window_count len step i = 0.
Proof.
  intros Hs Hi. unfold window_count.
  assert ((len - i + step - 1) / step < 1)%Z
    by (apply Z.div_lt_upper_bound; lia).
  lia.
Qed.

Lemma window_count_step (len step i : Z) :
  (0 < step)%Z -> (i < len)%Z ->
  window_count len step i = S (window_count len step (i + step)).
Proof.
  intros Hs Hi. unfold window_count.
  replace (len - i + step - 1)%Z with ((len - (i + step) + step - 1) + 1 * step)%Z by lia.
  rewrite Z.div_add by lia.
  assert (0 <= (len - (i + step) + step - 1) / step)%Z
    by (apply Z.div_pos; lia).
  lia.
Qed.

(** With a positive step the loop pushes exactly the windows. *)
Lemma chunkText_loop_windows (text : jsstring) (chunkSize step : Z) :
  (0 < step)%Z ->
  forall fuel i chunks,
    window_count (Z.of_nat (length text)) step i <= fuel ->
    chunkText_loop fuel text chunkSize step i chunks
    = Some (chunks ++ windows (window_count (Z.of_nat (length text)) step i)
                        text chunkSize step i).
Proof.
  intros Hs fuel. induction fuel as [| fuel IH]; intros i chunks Hfuel.
  - simpl. destruct (Z.ltb_spec i (Z.of_nat (length text))) as [Hi | Hi].
    + rewrite window_count_step in Hfuel by assumption. lia.
    + rewrite window_count_done by assumption. simpl. now rewrite app_nil_r.
  - simpl. destruct (Z.ltb_spec i (Z.of_nat (length text))) as [Hi | Hi].
    + rewrite window_count_step in * by assumption.
      rewrite IH by lia. simpl. now rewrite <- app_assoc.
    + rewrite window_count_done by assumption. simpl. now rewrite app_nil_r.
Qed.

(** With a step that is not positive the loop never leaves. *)
Lemma chunkText_loop_stuck (text : jsstring) (chunkSize step : Z) :
  (step <= 0)%Z -> (0 < Z.of_nat (length text))%Z ->
  forall fuel i chunks,
    (i <= 0)%Z -> chunkText_loop fuel text chunkSize step i chunks = None.
Proof.
  intros Hs Hlen fuel. induction fuel as [| fuel IH]; intros i chunks Hi; simpl.
  - destruct (Z.ltb_spec i (Z.of_nat (length text))); [reflexivity | lia].
  - destruct (Z.ltb_spec i (Z.of_nat (length text))); [| lia].
    apply IH. lia.
Qed.

(** More fuel never changes a result. *)
Lemma chunkText_loop_more_fuel (text : jsstring) (chunkSize step : Z) :
  forall fuel extra i chunks result,
    chunkText_loop fuel text chunkSize step i chunks = Some result ->
    chunkText_loop (fuel + extra) text chunkSize step i chunks = Some result.
Proof.
  intros fuel. induction fuel as [| fuel IH]; intros extra i chunks result; simpl.
  - destruct (Z.ltb_spec i (Z.of_nat (length text))) as [Hi | Hi]; [discriminate |].
    intros Hres. destruct extra; simpl; apply Z.ltb_ge in Hi; now rewrite Hi.
  - destruct (i <? Z.of_nat (length text))%Z; [apply IH | trivial].
Qed.

Lemma chunkText_more_fuel (text : jsstring) (chunkSize overlap : nat) :
  forall fuel extra result,
    chunkText fuel text chunkSize overlap = Some result ->
    chunkText (fuel + extra) text chunkSize overlap = Some result.
Proof.
  unfold chunkText. intros fuel extra result.
  destruct (Z.of_nat (length text) <=? Z.of_nat chunkSize)%Z; [trivial |].
  apply chunkText_loop_more_fuel.
Qed.

(** The result of [chunkText] does not depend on the fuel. *)
Lemma chunkText_returns_unique (text : jsstring) (chunkSize overlap : nat)
    (chunks1 chunks2 : list jsstring) :
  chunkText_returns text chunkSize overlap chunks1 ->
  chunkText_returns text chunkSize overlap chunks2 ->
  chunks1 = chunks2.
Proof.
  intros [f1 H1] [f2 H2].
  apply chunkText_more_fuel with (extra := f2) in H1.
  apply chunkText_more_fuel with (extra := f1) in H2.
  rewrite (Nat.add_comm f2 f1) in H2. congruence.
Qed.

(** The single-chunk shortcut. *)
Lemma chunkText_short (fuel : nat) (text : jsstring) (chunkSize overlap : nat) :
  length text <= chunkSize ->
  chunkText fuel text chunkSize overlap = Some [text].
Proof.
  intros Hlen. unfold chunkText.
  destruct (Z.leb_spec (Z.of_nat (length text)) (Z.of_nat chunkSize)); [reflexivity | lia].
Qed.

(** The sliding-window case, in closed form. *)
Lemma chunkText_long (fuel : nat) (text : jsstring) (chunkSize overlap : nat) :
  chunkSize < length text -> overlap < chunkSize ->
  let step := (Z.of_nat chunkSize - Z.of_nat overlap)%Z in
  let n := window_count (Z.of_nat (length text)) step 0 in
  n <= fuel ->
  chunkText fuel text chunkSize overlap
  = Some (windows n text (Z.of_nat chunkSize) step 0).
Proof.
  intros Hlen Hov step n Hfuel. unfold chunkText.
  destruct (Z.leb_spec (Z.of_nat (length text)) (Z.of_nat chunkSize)); [lia |].
  rewrite chunkText_loop_windows by (subst step n; lia || assumption).
  reflexivity.
Qed.

Lemma window_count_le_length (len step i : Z) :
  (0 < step)%Z -> (0 <= i)%Z -> (0 <= len)%Z ->
  window_count len step i <= Z.to_nat len.
Proof.
  intros Hs Hi Hlen. unfold window_count.
  destruct (Z_le_gt_dec len i) as [Hd | Hd].
  - assert ((len - i + step - 1) / step < 1)%Z
      by (apply Z.div_lt_upper_bound; lia).
    lia.
  - assert ((len - i + step - 1) / step <= len)%Z.
    { apply Z.lt_succ_r. apply Z.div_lt_upper_bound; [lia |].
      unfold Z.succ. nia. }
    lia.
Qed.

(** [length text] units of fuel are always enough when [overlap < chunkSize]. *)
Lemma chunkText_total (text : jsstring) (chunkSize overlap : nat) :
  overlap < chunkSize ->
  exists chunks, chunkText (length text) text chunkSize overlap = Some chunks.
Proof.
  intros Hov. destruct (le_lt_dec (length text) chunkSize) as [Hlen | Hlen].
  - exists [text]. now apply chunkText_short.
  - eexists. apply chunkText_long; try assumption.
    etransitivity; [apply window_count_le_length; lia |]. lia.
Qed.

Lemma windows_length (n : nat) (text : jsstring) (chunkSize step i : Z) :
  length (windows n text chunkSize step i) = n.
Proof. revert i. induction n as [| n IH]; intros i; simpl; [| rewrite IH]; reflexivity. Qed.

(** The [k]-th window starts at offset [i + k * step]. *)
Lemma windows_lookup (text : jsstring) (chunkSize step : Z) :
  forall n i k, k < n ->
    windows n text chunkSize step i !! k
    = Some (substring text (i + Z.of_nat k * step)%Z
                           (i + Z.of_nat k * step + chunkSize)%Z).
Proof.
  intros n. induction n as [| n IH]; intros i k Hk; [lia |].
  destruct k as [| k].
  - cbn [windows lookup list_lookup]. do 2 f_equal; lia.
  - cbn [windows lookup list_lookup]. rewrite IH by lia. do 2 f_equal; lia.
Qed.

(** Dropping the overlaps of the windows gives back the text from the
    first window's offset on. *)
Lemma reassemble_windows (text : jsstring) (chunkSize step : Z) :
  (0 < step <= chunkSize)%Z ->
  forall n i,
    (0 <= i)%Z ->
    window_count (Z.of_nat (length text)) step i = S n ->
    reassemble (Z.to_nat step) (windows (S n) text chunkSize step i)
    = drop (Z.to_nat i) text.
Proof.
  intros Hs n. induction n as [| n IH]; intros i Hi Hcount.
  - assert (Hlt : (i < Z.of_nat (length text))%Z).
    { destruct (Z_lt_ge_dec i (Z.of_nat (length text))); [assumption |].
      rewrite window_count_done in Hcount by lia. discriminate. }
    assert (Hend : (Z.of_nat (length text) <= i + step)%Z).
    { destruct (Z_lt_ge_dec (i + step) (Z.of_nat (length text))) as [Hd | Hd]; [| lia].
      rewrite window_count_step in Hcount by lia.
      rewrite (window_count_step _ _ (i + step)) in Hcount by lia. discriminate. }
    simpl. rewrite substring_take_drop by lia.
    apply take_ge. rewrite length_drop. lia.
  - assert (Hlt : (i < Z.of_nat (length text))%Z).
    { destruct (Z_lt_ge_dec i (Z.of_nat (length text))); [assumption |].
      rewrite window_count_done in Hcount by lia. discriminate. }
    rewrite window_count_step in Hcount by lia.
    injection Hcount as Hcount.
    change (reassemble (Z.to_nat step) (windows (S (S n)) text chunkSize step i))
      with (take (Z.to_nat step) (substring text i (i + chunkSize))
            ++ reassemble (Z.to_nat step)
                 (windows (S n) text chunkSize step (i + step))).
    rewrite IH by (lia || assumption).
    rewrite substring_take_drop by lia.
    rewrite take_take.
    replace (Z.to_nat step `min` Z.to_nat (i + chunkSize - i)) with (Z.to_nat step) by lia.
    replace (Z.to_nat (i + step)) with (Z.to_nat i + Z.to_nat step) by lia.
    rewrite <- drop_drop. apply take_drop.
Qed.

Lemma window_count_lt (len step : Z) :
  (0 < step)%Z ->
  forall k i, k < window_count len step i -> (i + Z.of_nat k * step < len)%Z.
Proof.
  intros Hs k. induction k as [| k IH]; intros i Hk.
  - destruct (Z_lt_ge_dec i len); [lia |].
    rewrite window_count_done in Hk by lia. lia.
  - destruct (Z_lt_ge_dec i len) as [Hi | Hi].
    + rewrite window_count_step in Hk by assumption.
      specialize (IH (i + step)%Z ltac:(lia)). lia.
    + rewrite window_count_done in Hk by lia. lia.
Qed.

(** Running out of [length text] units of fuel is the same as hanging. *)
Lemma chunkText_none_iff_diverges (text : jsstring) (chunkSize overlap : nat) :
  chunkText (length text) text chunkSize overlap = None
  <-> chunkText_diverges text chunkSize overlap.
Proof.
  split; [| intros Hd; apply Hd].
  intros Hnone fuel.
  destruct (le_lt_dec chunkSize overlap) as [Hov | Hov].
  - unfold chunkText in *.
    destruct (Z.leb_spec (Z.of_nat (length text)) (Z.of_nat chunkSize));
      [discriminate |].
    apply chunkText_loop_stuck; lia.
  - destruct (chunkText_total text chunkSize overlap Hov) as [chunks Hsome].
    congruence.
Qed.

(** C2. Chunk coverage: when the overlap is smaller than the chunk size,
    [chunkText] returns, and keeping the first [chunkSize - overlap]
    characters of every chunk but the last, which is kept whole, gives
    back the text exactly. *)
Theorem chunk_coverage (text : jsstring) (chunkSize overlap : nat) :
  overlap < chunkSize ->
  exists chunks,
    chunkText_returns text chunkSize overlap chunks /\
    reassemble (chunkSize - overlap) chunks = text.
Proof.
  intros Hov. destruct (le_lt_dec (length text) chunkSize) as [Hlen | Hlen].
  - exists [text]. split; [| reflexivity].
    exists 0. now apply chunkText_short.
  - set (step := (Z.of_nat chunkSize - Z.of_nat overlap)%Z).
    set (n := window_count (Z.of_nat (length text)) step 0).
    exists (windows n text (Z.of_nat chunkSize) step 0). split.
    + exists n. now apply chunkText_long.
    + assert (Hn : n = S (window_count (Z.of_nat (length text)) step (0 + step)))
        by (apply window_count_step; subst step; lia).
      rewrite Hn.
      replace (chunkSize - overlap) with (Z.to_nat step) by (subst step; lia).
      rewrite reassemble_windows; [reflexivity | subst step; lia | lia |].
      now rewrite <- Hn.
Qed.

Lemma chunk_coverage_witness :
  exists chunks,
    chunkText_returns (lit "abcdefg") 4 2 chunks /\
    reassemble (4 - 2) chunks = lit "abcdefg".
Proof. apply (chunk_coverage (lit "abcdefg") 4 2). lia. Defined.

(** C3. [chunkText] returns for every text when the overlap is smaller
    than the chunk size; with an overlap that is not smaller and a text
    longer than the chunk size, the loop variable never passes the end of
    the text and [chunkText] hangs: nothing rejects the configuration. *)
Theorem chunkText_termination (text : jsstring) (chunkSize overlap : nat) :
  (overlap < chunkSize ->
   exists chunks, chunkText_returns text chunkSize overlap chunks) /\
  (chunkSize <= overlap -> chunkSize < length text ->
   chunkText_diverges text chunkSize overlap).
Proof.
  split.
  - intros Hov. destruct (chunkText_total text chunkSize overlap Hov) as [chunks H].
    exists chunks, (length text). exact H.
  - intros Hov Hlen fuel. unfold chunkText.
    destruct (Z.leb_spec (Z.of_nat (length text)) (Z.of_nat chunkSize)); [lia |].
    apply chunkText_loop_stuck; lia.
Qed.

Lemma chunkText_termination_witness :
  (exists chunks, chunkText_returns (lit "abcdefg") 4 2 chunks) /\
  chunkText_diverges (lit "abcdefg") 3 3.
Proof.
  split.
  - apply (proj1 (chunkText_termination (lit "abcdefg") 4 2)). lia.
  - apply (proj2 (chunkText_termination (lit "abcdefg") 3 3)); simpl; lia.
Defined.

(** C5, as stated, fails on the text [abcdef] with size 4 and overlap 3,
    cut into [abcd], [bcde], [cdef], [def], [ef], [f]: the chunk [def] is
    shorter than 4 although two chunks follow it, and it shares 2
    characters, not 3, with its successor [ef], which is not the last
    chunk either. *)
Lemma exact_overlap_counterexample :
  exists chunks,
    chunkText_returns (lit "abcdef") 4 3 chunks /\
    chunks = [lit "abcd"; lit "bcde"; lit "cdef"; lit "def"; lit "ef"; lit "f"] /\
    3 < 4 < length (lit "abcdef") /\
    overlap_region (4 - 3) (lit "def") = lit "ef" /\
    ~ exact_overlap 4 3 chunks.
Proof.
  exists [lit "abcd"; lit "bcde"; lit "cdef"; lit "def"; lit "ef"; lit "f"].
  split; [exists 6; reflexivity |].
  split; [reflexivity |].
  split; [simpl; lia |].
  split; [reflexivity |].
  intros H. destruct (H 3 (lit "def") (lit "ef") eq_refl eq_refl) as [Hlen _].
  discriminate Hlen.
Qed.

Lemma window_count_gt (len step : Z) :
  (0 < step)%Z ->
  forall k i, (i + Z.of_nat k * step < len)%Z -> k < window_count len step i.
Proof.
  intros Hs k. induction k as [| k IH]; intros i Hk.
  - rewrite window_count_step by lia. lia.
  - rewrite window_count_step by nia.
    apply -> Nat.succ_lt_mono. apply IH. nia.
Qed.

(** C5 (amended). For [overlap < chunkSize < length text], there is a
    chunk at position [k] exactly when [k * (chunkSize - overlap)] is
    before the end of the text, and it is the window of the text at that
    offset, [chunkSize] long unless the end of the text clips it; what it
    shares with the next chunk is a prefix of that chunk of length
    [min overlap (length text - (k + 1) * (chunkSize - overlap))], which is
    exactly [overlap] whenever the chunk itself is [chunkSize] long. *)
Theorem consecutive_chunks_overlap (text : jsstring) (chunkSize overlap : nat) :
  overlap < chunkSize -> chunkSize < length text ->
  exists chunks,
    chunkText_returns text chunkSize overlap chunks /\
    (forall k, k < length chunks <-> k * (chunkSize - overlap) < length text) /\
    (forall k c,
       chunks !! k = Some c ->
       let offset := k * (chunkSize - overlap) in
       c = substring text (Z.of_nat offset) (Z.of_nat (offset + chunkSize)) /\
       c = take chunkSize (drop offset text) /\
       length c = Nat.min chunkSize (length text - offset)) /\
    forall k c c',
      chunks !! k = Some c -> chunks !! (S k) = Some c' ->
      let step := chunkSize - overlap in
      length c = Nat.min chunkSize (length text - k * step) /\
      overlap_region step c = take (length c - step) c' /\
      length (overlap_region step c)
      = Nat.min overlap (length text - S k * step) /\
      (length c = chunkSize -> length (overlap_region step c) = overlap).
Proof.
  intros Hov Hlen.
  set (zstep := (Z.of_nat chunkSize - Z.of_nat overlap)%Z).
  set (n := window_count (Z.of_nat (length text)) zstep 0).
  assert (Hzstep : (0 < zstep)%Z) by (subst zstep; lia).
  assert (Hstep : Z.of_nat (chunkSize - overlap) = zstep) by (subst zstep; lia).
  exists (windows n text (Z.of_nat chunkSize) zstep 0). split.
  { exists n. now apply chunkText_long. }
  split; [| split].
  { intros k. rewrite windows_length. split.
    - intros Hk.
      pose proof (window_count_lt _ zstep Hzstep k 0%Z Hk) as Hin. nia.
    - intros Hk. apply window_count_gt; [assumption | nia]. }
  { intros k c Hc offset.
    assert (Hk : k < n).
    { apply lookup_lt_Some in Hc. now rewrite windows_length in Hc. }
    rewrite windows_lookup in Hc by assumption. injection Hc as <-.
    replace (0 + Z.of_nat k * zstep)%Z with (Z.of_nat offset)
      by (subst offset; nia).
    replace (Z.of_nat offset + Z.of_nat chunkSize)%Z
      with (Z.of_nat (offset + chunkSize)) by lia.
    assert (Hwindow : substring text (Z.of_nat offset)
                        (Z.of_nat (offset + chunkSize))
                      = take chunkSize (drop offset text)).
    { rewrite substring_take_drop by lia. rewrite Nat2Z.id. f_equal. lia. }
    split; [reflexivity |]. split; [exact Hwindow |].
    rewrite Hwindow, length_take, length_drop. lia. }
  intros k c c' Hc Hc' step.
  assert (Hk : S k < n).
  { apply lookup_lt_Some in Hc'. now rewrite windows_length in Hc'. }
  pose proof (window_count_lt _ zstep ltac:(subst zstep; lia) (S k) 0%Z Hk) as Hin.
  rewrite windows_lookup in Hc, Hc' by lia.
  injection Hc as <-. injection Hc' as <-.
  rewrite !substring_take_drop by (subst zstep; lia).
  replace (Z.to_nat (0 + Z.of_nat k * zstep + Z.of_nat chunkSize
                     - (0 + Z.of_nat k * zstep))) with chunkSize by lia.
  replace (Z.to_nat (0 + Z.of_nat (S k) * zstep + Z.of_nat chunkSize
                     - (0 + Z.of_nat (S k) * zstep))) with chunkSize by lia.
  replace (Z.to_nat (0 + Z.of_nat k * zstep)) with (k * step)
    by (subst zstep step; nia).
  replace (Z.to_nat (0 + Z.of_nat (S k) * zstep)) with (k * step + step)
    by (subst zstep step; nia).
  assert (Hend : k * step + step < length text) by (subst zstep step; nia).
  unfold overlap_region.
  rewrite skipn_firstn_comm, !length_take, !length_drop, drop_drop, take_take.
  replace (chunkSize - step) with overlap by (subst step; lia).
  repeat split; try (subst step; lia).
  destruct (le_lt_dec (length text - k * step) chunkSize) as [Hclip | Hfull].
  - rewrite !take_ge; try reflexivity; rewrite length_drop; subst step; lia.
  - f_equal. subst step. lia.
Qed.

Lemma consecutive_chunks_overlap_witness :
  exists chunks,
    chunkText_returns (lit "abcdefg") 4 2 chunks /\
    (forall k, k < length chunks <-> k * (4 - 2) < length (lit "abcdefg")) /\
    (forall k c,
       chunks !! k = Some c ->
       let offset := k * (4 - 2) in
       c = substring (lit "abcdefg") (Z.of_nat offset) (Z.of_nat (offset + 4)) /\
       c = take 4 (drop offset (lit "abcdefg")) /\
       length c = Nat.min 4 (length (lit "abcdefg") - offset)) /\
    forall k c c',
      chunks !! k = Some c -> chunks !! (S k) = Some c' ->
      let step := 4 - 2 in
      length c = Nat.min 4 (length (lit "abcdefg") - k * step) /\
      overlap_region step c = take (length c - step) c' /\
      length (overlap_region step c)
      = Nat.min 2 (length (lit "abcdefg") - S k * step) /\
      (length c = 4 -> length (overlap_region step c) = 2).
Proof.
  apply (consecutive_chunks_overlap (lit "abcdefg") 4 2); simpl; lia.
Defined.

End ChunkerFacts.

(** ** Properties of [Promise.all] *)

Module EffectsFacts.
Import Effects.

Lemma all_filled_Some {B} (values : list (option B)) (vs : list B) :
  all_filled values = Some vs <-> values = map Some vs.
Proof.
  revert vs. induction values as [| [v |] values IH]; intros vs; simpl.
  - split; [intros [= <-]; reflexivity | destruct vs; [reflexivity | discriminate]].
  - destruct (all_filled values) as [ws |] eqn:E.
    + split.
      * intros [= <-]. simpl. f_equal. now apply IH.
      * destruct vs as [| w vs]; [discriminate |]. intros [= -> Hvs].
        apply IH in Hvs. congruence.
    + split; [discriminate |].
      destruct vs as [| w vs]; [discriminate |]. intros [= _ Hvs].
      apply IH in Hvs. discriminate.
  - split; [discriminate | destruct vs; discriminate].
Qed.

Lemma all_filled_None {B} (values : list (option B)) :
  all_filled values = None -> exists j, values !! j = Some None.
Proof.
  induction values as [| [v |] values IH]; simpl; [discriminate | |].
  - destruct (all_filled values); [discriminate |].
    intros _. destruct (IH eq_refl) as [j Hj]. now exists (S j).
  - intros _. now exists 0.
Qed.

Lemma Promise_all_loop_unfold {B} (order : list nat)
    (promises : list (outcome B)) (values : list (option B)) :
  Promise_all_loop order promises values
  = match all_filled values with
    | Some vs => Returns vs
    | None =>
        match order with
        | [] => Never
        | i :: order' =>
            match promises !! i with
            | Some (Returns v) =>
                Promise_all_loop order' promises (<[i := Some v]> values)
            | Some (Throws e) => Throws e
            | Some Never | None => Promise_all_loop order' promises values
            end
        end
    end.
Proof. destruct order; reflexivity. Qed.

Lemma slots_agree_insert {B} (promises : list (outcome B))
    (values : list (option B)) (i : nat) (v : B) :
  slots_agree promises values ->
  promises !! i = Some (Returns v) ->
  slots_agree promises (<[i := Some v]> values).
Proof.
  intros [Hlen Hval] Hi. split; [now rewrite length_insert |].
  intros j w Hj. destruct (decide (i = j)) as [-> | Hne].
  - rewrite list_lookup_insert_eq in Hj
      by (rewrite Hlen; now apply lookup_lt_Some in Hi).
    congruence.
  - rewrite list_lookup_insert_ne in Hj by assumption. now apply Hval.
Qed.

Lemma Promise_all_loop_returns {B} (promises : list (outcome B)) :
  forall order values vs,
    slots_agree promises values ->
    Promise_all_loop order promises values = Returns vs ->
    promises = map Returns vs.
Proof.
  intros order. induction order as [| i order IH]; intros values vs Hagree;
    rewrite Promise_all_loop_unfold;
    destruct (all_filled values) as [ws |] eqn:Hfill.
  1, 3: intros [= ->]; apply all_filled_Some in Hfill; subst values;
    destruct Hagree as [Hlen Hval]; rewrite length_map in Hlen;
    apply list_eq_same_length with (length vs);
      [now rewrite length_map | congruence |];
    intros j x y Hj Hx Hy;
    assert (Hv : is_Some (vs !! j)) by (apply lookup_lt_is_Some; lia);
    destruct Hv as [v Hv];
    specialize (Hval j v); rewrite list_lookup_fmap, Hv in Hval;
    specialize (Hval eq_refl);
    rewrite list_lookup_fmap, Hv in Hy; simpl in Hy; congruence.
  - discriminate.
  - destruct (promises !! i) as [[v | e |] |] eqn:Hi; try discriminate.
    + apply IH. now apply slots_agree_insert.
    + now apply IH.
    + now apply IH.
Qed.

(** Whatever the completion order, a result of [Promise.all] holds the
    value of the [i]-th promise at index [i]. *)
Lemma Promise_all_returns {B} (order : list nat) (promises : list (outcome B))
    (vs : list B) :
  Promise_all order promises = Returns vs -> promises = map Returns vs.
Proof.
  apply Promise_all_loop_returns. split.
  - now rewrite length_replicate.
  - intros j v Hj. apply lookup_replicate in Hj. destruct Hj; discriminate.
Qed.

Lemma map_Returns_inj {B} (vs ws : list B) :
  map Returns vs = map Returns ws -> vs = ws.
Proof.
  revert ws. induction vs as [| v vs IH]; intros [| w ws]; simpl;
    try discriminate; [reflexivity |].
  intros [= -> Hrest]. f_equal. now apply IH.
Qed.

Lemma Promise_all_loop_fulfilled {B} (vs : list B) :
  forall order values,
    slots_agree (map Returns vs) values ->
    (forall j, values !! j = Some None -> j ∈ order) ->
    Promise_all_loop order (map Returns vs) values = Returns vs.
Proof.
  intros order. induction order as [| i order IH]; intros values Hagree Hpending;
    rewrite Promise_all_loop_unfold;
    destruct (all_filled values) as [ws |] eqn:Hfill.
  1, 3: f_equal; apply map_Returns_inj;
    symmetry; apply (Promise_all_loop_returns _ [] values); [assumption |];
    rewrite Promise_all_loop_unfold, Hfill; reflexivity.
  - apply all_filled_None in Hfill. destruct Hfill as [j Hj].
    apply Hpending in Hj. now apply elem_of_nil in Hj.
  - destruct (map Returns vs !! i) as [p |] eqn:Hi.
    + rewrite list_lookup_fmap in Hi.
      destruct (vs !! i) as [v |] eqn:Hv; [| discriminate].
      injection Hi as <-.
      apply IH.
      * apply slots_agree_insert; [assumption |].
        now rewrite list_lookup_fmap, Hv.
      * intros j Hj. destruct (decide (i = j)) as [-> | Hne].
        -- rewrite list_lookup_insert_eq in Hj; [discriminate |].
           destruct Hagree as [-> _]. rewrite length_map.
           now apply lookup_lt_Some in Hv.
        -- rewrite list_lookup_insert_ne in Hj by assumption.
           apply Hpending in Hj. apply elem_of_cons in Hj.
           destruct Hj; [congruence | assumption].
    + apply IH; [assumption |].
      intros j Hj. pose proof (Hpending j Hj) as Hin.
      apply elem_of_cons in Hin. destruct Hin as [-> | Hin]; [| assumption].
      apply lookup_lt_Some in Hj. destruct Hagree as [Hlen _].
      apply lookup_ge_None in Hi. lia.
Qed.

(** When every promise is fulfilled and every one of them completes,
    [Promise.all] delivers the values in the order of the promises. *)
Lemma Promise_all_fulfilled {B} (order : list nat) (vs : list B) :
  (forall i, i < length vs -> i ∈ order) ->
  Promise_all order (map Returns vs) = Returns vs.
Proof.
  intros Hall. apply Promise_all_loop_fulfilled.
  - split; [now rewrite length_replicate |].
    intros j v Hj. apply lookup_replicate in Hj. destruct Hj; discriminate.
  - intros j Hj. apply Hall. apply lookup_lt_Some in Hj.
    now rewrite length_replicate, length_map in Hj.
Qed.

End EffectsFacts.

(** ** Properties of the parser and the extractor *)

Module ExtractorFacts.
Import Text Json Effects Chunker Service.

Lemma lit_fence : lit "```" = [96; 96; 96]%N.
Proof. reflexivity. Qed.

Lemma lit_json_fence : lit "```json" = [96; 96; 96; 106; 115; 111; 110]%N.
Proof. reflexivity. Qed.

Lemma trimEnd_keep (s : jsstring) (c : codeunit) :
  is_whitespace c = false -> trimEnd (s ++ [c]) = s ++ [c].
Proof.
  intros Hc. unfold trimEnd. rewrite rev_app_distr.
  cbn [rev app trimStart]. rewrite Hc.
  cbn [rev]. now rewrite rev_involutive.
Qed.

Lemma strip_trailing_fence_app (body : jsstring) :
  strip_trailing_fence (body ++ lit "```") = body.
Proof.
  rewrite lit_fence. unfold strip_trailing_fence. rewrite rev_app_distr.
  cbn [rev app]. apply rev_involutive.
Qed.

(** A reply wrapped in a [json] code fence is reduced to its body. *)
Lemma clean_json_fence (body : jsstring) :
  clean (lit "```json" ++ body ++ lit "```") = trim body.
Proof.
  unfold clean.
  assert (Htrim : trim (lit "```json" ++ body ++ lit "```")
                  = lit "```json" ++ body ++ lit "```").
  { rewrite lit_json_fence, lit_fence. unfold trim.
    cbn [app trimStart is_whitespace].
    change ([96; 96; 96]%N) with ([96; 96] ++ [96])%N.
    rewrite !app_comm_cons, !app_assoc.
    now rewrite trimEnd_keep. }
  rewrite Htrim. rewrite lit_json_fence at 1.
  cbn [app strip_leading_fence same_letter N.eqb Pos.eqb orb andb].
  now rewrite strip_trailing_fence_app.
Qed.

(** So is a reply wrapped in a fence without a language tag. *)
Lemma clean_plain_fence (c : codeunit) (body : jsstring) :
  same_letter 106 74 c = false ->
  clean (lit "```" ++ c :: body ++ lit "```") = trim (c :: body).
Proof.
  intros Hc. unfold clean.
  assert (Htrim : trim (lit "```" ++ c :: body ++ lit "```")
                  = lit "```" ++ c :: body ++ lit "```").
  { rewrite lit_fence. unfold trim.
    cbn [app trimStart is_whitespace].
    change ([96; 96; 96]%N) with ([96; 96] ++ [96])%N.
    rewrite !app_comm_cons, !app_assoc.
    now rewrite trimEnd_keep. }
  rewrite Htrim.
  assert (Hstrip : strip_leading_fence (lit "```" ++ c :: body ++ lit "```")
                   = c :: body ++ lit "```").
  { rewrite lit_fence. cbn [app strip_leading_fence].
    destruct body as [| b1 [| b2 [| b3 body]]]; cbn [app]; now rewrite Hc. }
  rewrite Hstrip, app_comm_cons.
  now rewrite strip_trailing_fence_app.
Qed.

Lemma tryParseJson_run (h : host) (text : jsstring) :
  tryParseJson h text
  = Returns (match JSON_parse h (clean text) with
             | Some v => v
             | None => JNull
             end).
Proof. unfold tryParseJson, catch. now destruct (JSON_parse h (clean text)). Qed.

(** C10. [tryParseJson] is total: for every input it returns, either the
    value [JSON.parse] gives for the cleaned text or [null] when
    [JSON.parse] throws; it never throws and never hangs.  Cleaning
    removes a leading [```json] or [```] fence and a trailing [```]
    fence. *)
Theorem tryParseJson_total (h : host) (text : jsstring) :
  tryParseJson h text
  = Returns (match JSON_parse h (clean text) with
             | Some v => v
             | None => JNull
             end) /\
  (forall e, tryParseJson h text <> Throws e) /\
  tryParseJson h text <> Never /\
  (forall body, clean (lit "```json" ++ body ++ lit "```") = trim body) /\
  (forall c body,
     same_letter 106 74 c = false ->
     clean (lit "```" ++ c :: body ++ lit "```") = trim (c :: body)).
Proof.
  rewrite tryParseJson_run.
  repeat split; try discriminate.
  - apply clean_json_fence.
  - apply clean_plain_fence.
Qed.

Lemma tryParseJson_total_witness :
  tryParseJson Examples.echo_host (lit "```json{}```")
  = Returns (JObj [(lit "clauses", JArr [JStr (lit "{}")])]) /\
  clean (lit "```" ++ 10%N :: lit "{}" ++ lit "```") = lit "{}".
Proof.
  split.
  - apply (proj1 (tryParseJson_total Examples.echo_host (lit "```json{}```"))).
  - apply (proj2 (proj2 (proj2 (proj2
             (tryParseJson_total Examples.echo_host [])))) 10%N (lit "{}")).
    reflexivity.
Defined.

(** [analyzeChunk] in one step: one call to the chat model, whose failure
    is the failure of [analyzeChunk]; a reply without a usable [clauses]
    member gives the empty list. *)
Lemma analyzeChunk_run (h : host) (chunk role : jsstring) (log : list event) :
  analyzeChunk h chunk role log
  = (match chatComplete h log (ExtractRequest chunk role) with
     | Returns output =>
         Returns (or_else
                    (optional_member
                       (match JSON_parse h (clean output) with
                        | Some v => v
                        | None => JNull
                        end) (lit "clauses"))
                    (JArr []))
     | Throws e => Throws e
     | Never => Never
     end, log ++ [ChatCall (ExtractRequest chunk role)]).
Proof.
  unfold analyzeChunk, bind, call_chat, settle, ret.
  destruct (chatComplete h log (ExtractRequest chunk role)); try reflexivity.
  now rewrite tryParseJson_run.
Qed.

(** A reply that does not parse gives the empty clause list. *)
Lemma analyzeChunk_unparseable (h : host) (chunk role output : jsstring)
    (log : list event) :
  chatComplete h log (ExtractRequest chunk role) = Returns output ->
  JSON_parse h (clean output) = None ->
  fst (analyzeChunk h chunk role log) = Returns (JArr []).
Proof. intros Hchat Hparse. now rewrite analyzeChunk_run, Hchat, Hparse. Qed.

Lemma start_all_length {A B} (f : A -> M B) (xs : list A) (log : list event) :
  length (fst (start_all f xs log)) = length xs.
Proof.
  revert log. induction xs as [| x xs IH]; intros log; simpl; [reflexivity |].
  destruct (f x log) as [p log1].
  specialize (IH log1). destruct (start_all f xs log1). simpl in *. now rewrite IH.
Qed.

(** The promise at index [i] is the one the call on the [i]-th element left. *)
Lemma start_all_Forall2 {A B} (f : A -> M B) (xs : list A) (log : list event) :
  Forall2 (fun x p => exists log_x, p = fst (f x log_x))
          xs (fst (start_all f xs log)).
Proof.
  revert log. induction xs as [| x xs IH]; intros log; simpl; [constructor |].
  destruct (f x log) as [p log1] eqn:Hf.
  specialize (IH log1). destruct (start_all f xs log1). simpl in *.
  constructor; [| assumption]. exists log. now rewrite Hf.
Qed.

(** The extractor calls are issued in chunk order, one per chunk, before
    any of them is awaited. *)
Lemma start_all_analyzeChunk_log (h : host) (role : jsstring)
    (chunks : list jsstring) (log : list event) :
  snd (start_all (fun chunk => analyzeChunk h chunk role) chunks log)
  = log ++ map (fun chunk => ChatCall (ExtractRequest chunk role)) chunks.
Proof.
  revert log. induction chunks as [| c chunks IH]; intros log; simpl.
  - now rewrite app_nil_r.
  - rewrite analyzeChunk_run.
    specialize (IH (log ++ [ChatCall (ExtractRequest c role)])).
    destruct (start_all _ chunks _). simpl in *.
    now rewrite IH, <- app_assoc.
Qed.

End ExtractorFacts.

(** ** Properties of [analyzeContract] *)

Module OrchestratorFacts.
Import Text Json Effects Chunker Service Examples.
Import ChunkerFacts EffectsFacts ExtractorFacts.

Lemma key_eqb_refl (k : jsstring) : key_eqb k k = true.
Proof. unfold key_eqb. now apply bool_decide_eq_true. Qed.

(** A property written by an object literal is read back, whatever the
    spread before it held. *)
Lemma get_set_prop (props : list (jsstring * json)) (key : jsstring) (v : json) :
  get_prop (set_prop props key v) key = Some v.
Proof.
  induction props as [| [k w] props IH]; simpl.
  - now rewrite key_eqb_refl.
  - destruct (key_eqb k key) eqn:Hk; simpl; now rewrite Hk.
Qed.

(** [analyzeContract] step by step, once the chunks are known. *)
Lemma analyzeContract_run (h : host) (order : list nat)
    (documentText role : jsstring) (log : list event) (chunks : list jsstring) :
  chunkText (length documentText) documentText default_chunkSize default_overlap
  = Some chunks ->
  let log2 :=
    (log ++ [Progress (lit "Chunking document...")])
    ++ [Progress (lit "Analyzing " ++ decimal (length chunks)
                  ++ lit " document section(s)...")] in
  let started := start_all (fun chunk => analyzeChunk h chunk role) chunks log2 in
  analyzeContract h order documentText role log
  = match Promise_all order (fst started) with
    | Returns chunkResults =>
        if (length (flat chunkResults) =? 0)%nat
        then (Throws (Error no_clauses_message), snd started)
        else
          match synthesizeReport h (flat chunkResults) role
                  (snd started ++ [Progress (lit "Synthesizing final report...")])
          with
          | (Returns finalReport, log4) =>
              (Returns (JObj (set_prop (spread finalReport) (lit "clauses")
                                (JArr (flat chunkResults)))), log4)
          | (Throws e, log4) => (Throws e, log4)
          | (Never, log4) => (Never, log4)
          end
    | Throws e => (Throws e, snd started)
    | Never => (Never, snd started)
    end.
Proof.
  intros Hchunks log2 started.
  unfold analyzeContract, bind, run_chunkText, onProgress, emit, settle, ret, throw.
  rewrite Hchunks. fold log2. fold started.
  destruct started as [promises log3]. cbn [fst snd].
  destruct (Promise_all order promises) as [chunkResults | e |]; try reflexivity.
  destruct (length (flat chunkResults) =? 0)%nat; reflexivity.
Qed.

Lemma default_chunks_exist (documentText : jsstring) :
  exists chunks,
    chunkText (length documentText) documentText default_chunkSize default_overlap
    = Some chunks.
Proof. apply chunkText_total. unfold default_chunkSize, default_overlap. lia. Qed.

Lemma extractor_calls_app (l1 l2 : list event) :
  extractor_calls (l1 ++ l2) = extractor_calls l1 ++ extractor_calls l2.
Proof. apply omap_app. Qed.

Lemma extractor_calls_issued (role : jsstring) (chunks : list jsstring) :
  extractor_calls (map (fun chunk => ChatCall (ExtractRequest chunk role)) chunks)
  = chunks.
Proof. induction chunks as [| c chunks IH]; simpl; [| rewrite IH]; reflexivity. Qed.

Lemma synthesizeReport_extractor_calls (h : host) (clauses : list json)
    (role : jsstring) (log : list event) :
  extractor_calls (snd (synthesizeReport h clauses role log)) = extractor_calls log.
Proof.
  unfold synthesizeReport, bind, settle, call_chat, ret, throw.
  destruct (render_clauses h clauses) as [e | ctx]; [reflexivity |].
  destruct (chatComplete h log (SynthesisRequest ctx role)) as [output | e |];
    cbn [snd];
    try (rewrite extractor_calls_app; simpl; now rewrite app_nil_r).
  destruct (tryParseJson h output) as [parsed | e |]; cbn [snd];
    try (rewrite extractor_calls_app; simpl; now rewrite app_nil_r).
  destruct (truthy parsed); cbn [snd];
    rewrite extractor_calls_app; simpl; now rewrite app_nil_r.
Qed.

(** The extractor is called once per chunk, in chunk order, however the
    analysis ends. *)
Lemma analyzeContract_extractor_calls (h : host) (order : list nat)
    (documentText role : jsstring) (log : list event) (chunks : list jsstring) :
  chunkText (length documentText) documentText default_chunkSize default_overlap
  = Some chunks ->
  extractor_calls (snd (analyzeContract h order documentText role log))
  = extractor_calls log ++ chunks.
Proof.
  intros Hchunks. rewrite (analyzeContract_run _ _ _ _ _ _ Hchunks).
  set (log2 := (log ++ _) ++ _).
  assert (Hstarted : extractor_calls
            (snd (start_all (fun chunk => analyzeChunk h chunk role) chunks log2))
          = extractor_calls log ++ chunks).
  { rewrite start_all_analyzeChunk_log, extractor_calls_app, extractor_calls_issued.
    subst log2. rewrite !extractor_calls_app. simpl. now rewrite !app_nil_r. }
  destruct (Promise_all order _) as [chunkResults | e |]; cbn [snd]; try assumption.
  destruct (length (flat chunkResults) =? 0)%nat; cbn [snd]; try assumption.
  pose proof (synthesizeReport_extractor_calls h (flat chunkResults) role
                (snd (start_all (fun chunk => analyzeChunk h chunk role) chunks log2)
                 ++ [Progress (lit "Synthesizing final report...")])) as Hsyn.
  destruct (synthesizeReport h (flat chunkResults) role _) as [[finalReport | e |] log4];
    cbn [snd] in *; rewrite Hsyn, extractor_calls_app, Hstarted; simpl;
    now rewrite app_nil_r.
Qed.

(** What a returned response holds, for given chunks. *)
Lemma analyzeContract_clauses (h : host) (order : list nat)
    (documentText role : jsstring) (log log' : list event) (response : json)
    (chunks : list jsstring) :
  chunkText (length documentText) documentText default_chunkSize default_overlap
  = Some chunks ->
  analyzeContract h order documentText role log = (Returns response, log') ->
  exists results,
    fst (start_all (fun chunk => analyzeChunk h chunk role) chunks
           ((log ++ [Progress (lit "Chunking document...")])
            ++ [Progress (lit "Analyzing " ++ decimal (length chunks)
                          ++ lit " document section(s)...")]))
    = map Returns results /\
    member response (lit "clauses") = Some (JArr (flat results)).
Proof.
  intros Hchunks. rewrite (analyzeContract_run _ _ _ _ _ _ Hchunks).
  destruct (Promise_all order _) as [chunkResults | e |] eqn:Hall; try discriminate.
  apply Promise_all_returns in Hall.
  destruct (length (flat chunkResults) =? 0)%nat; [discriminate |].
  destruct (synthesizeReport h (flat chunkResults) role _)
    as [[finalReport | e |] log4]; try discriminate.
  intros [= <- _]. exists chunkResults. split; [exact Hall |].
  apply get_set_prop.
Qed.

(** [analyzeContract] does return when every extractor call completes
    with a value, some clause was found and the synthesis succeeds. *)
Lemma analyzeContract_returns (h : host) (order : list nat)
    (documentText role : jsstring) (log log4 : list event)
    (chunks : list jsstring) (results : list json) (finalReport : json) :
  chunkText (length documentText) documentText default_chunkSize default_overlap
  = Some chunks ->
  let started :=
    start_all (fun chunk => analyzeChunk h chunk role) chunks
      ((log ++ [Progress (lit "Chunking document...")])
       ++ [Progress (lit "Analyzing " ++ decimal (length chunks)
                     ++ lit " document section(s)...")]) in
  fst started = map Returns results ->
  (forall i, i < length chunks -> i ∈ order) ->
  flat results <> [] ->
  synthesizeReport h (flat results) role
    (snd started ++ [Progress (lit "Synthesizing final report...")])
  = (Returns finalReport, log4) ->
  analyzeContract h order documentText role log
  = (Returns (JObj (set_prop (spread finalReport) (lit "clauses")
                      (JArr (flat results)))), log4).
Proof.
  intros Hchunks started Hpromises Horder Hclauses Hsynth.
  rewrite (analyzeContract_run _ _ _ _ _ _ Hchunks). fold started.
  rewrite Hpromises, Promise_all_fulfilled.
  - destruct (flat results) as [| c cs] eqn:Hflat; [contradiction |].
    cbn [length Nat.eqb]. now rewrite Hsynth.
  - intros i Hi. apply Horder.
    rewrite <- (start_all_length (fun chunk => analyzeChunk h chunk role) chunks
                  ((log ++ [Progress (lit "Chunking document...")])
                   ++ [Progress (lit "Analyzing " ++ decimal (length chunks)
                                 ++ lit " document section(s)...")])).
    fold started. rewrite Hpromises. now rewrite length_map.
Qed.

(** C8. The [clauses] of a response returned by [analyzeContract] are the
    extraction results of the chunks, flattened in chunk order: the items
    of the result for chunk 0, then those for chunk 1, and so on.  The
    order in which the calls complete plays no part (any completion order
    that lets the analysis return gives the same clauses), and neither
    does the synthesizer's reply, a [clauses] member of which is
    overwritten. *)
Theorem analyzeContract_clauses_in_chunk_order (h : host) (order : list nat)
    (documentText role : jsstring) (log log' : list event) (response : json) :
  analyzeContract h order documentText role log = (Returns response, log') ->
  exists chunks results,
    chunkText_returns documentText default_chunkSize default_overlap chunks /\
    Forall2 (fun chunk result =>
               exists log_x,
                 fst (analyzeChunk h chunk role log_x) = Returns result)
            chunks results /\
    member response (lit "clauses") = Some (JArr (concat (map items_of results))) /\
    forall order' response' log'',
      analyzeContract h order' documentText role log = (Returns response', log'') ->
      member response' (lit "clauses") = member response (lit "clauses").
Proof.
  intros Hrun. destruct (default_chunks_exist documentText) as [chunks Hchunks].
  destruct (analyzeContract_clauses _ _ _ _ _ _ _ _ Hchunks Hrun)
    as (results & Hpromises & Hclauses).
  exists chunks, results. split; [now exists (length documentText) |].
  split; [| split; [exact Hclauses |]].
  - pose proof (start_all_Forall2 (fun chunk => analyzeChunk h chunk role) chunks
                  ((log ++ [Progress (lit "Chunking document...")])
                   ++ [Progress (lit "Analyzing " ++ decimal (length chunks)
                                 ++ lit " document section(s)...")])) as Hall.
    rewrite Hpromises in Hall. clear -Hall.
    remember (map Returns results) as ps eqn:Hps.
    revert results Hps. induction Hall as [| c p cs ps [log_x Hp] _ IH];
      intros [| r rs] Hps; try discriminate; constructor.
    + injection Hps as -> _. exists log_x. congruence.
    + apply IH. now injection Hps.
  - intros order' response' log'' Hrun'.
    destruct (analyzeContract_clauses _ _ _ _ _ _ _ _ Hchunks Hrun')
      as (results' & Hpromises' & Hclauses').
    rewrite Hpromises in Hpromises'. apply map_Returns_inj in Hpromises'.
    subst results'. congruence.
Qed.

Lemma analyzeContract_clauses_in_chunk_order_witness :
  exists chunks results,
    chunkText_returns doc_two_chunks default_chunkSize default_overlap chunks /\
    Forall2 (fun chunk result =>
               exists log_x,
                 fst (analyzeChunk echo_host chunk (lit "tenant") log_x)
                 = Returns result)
            chunks results /\
    member two_chunks_response (lit "clauses")
    = Some (JArr (concat (map items_of results))) /\
    forall order' response' log'',
      analyzeContract echo_host order' doc_two_chunks (lit "tenant") []
      = (Returns response', log'') ->
      member response' (lit "clauses")
      = member two_chunks_response (lit "clauses").
Proof.
  apply (analyzeContract_clauses_in_chunk_order echo_host [1; 0] doc_two_chunks
           (lit "tenant") []
           (snd (analyzeContract echo_host [1; 0] doc_two_chunks (lit "tenant") []))).
  vm_compute. reflexivity.
Defined.

Lemma chunks_of_9000 (documentText : jsstring) :
  Z.of_nat (length documentText) = 9000%Z ->
  chunkText (length documentText) documentText default_chunkSize default_overlap
  = Some [substring documentText 0 4000; substring documentText 3600 7600;
          substring documentText 7200 11200].
Proof.
  intros Hlen.
  assert (Hsize : Z.of_nat default_chunkSize = 4000%Z) by reflexivity.
  assert (Hover : Z.of_nat default_overlap = 400%Z) by reflexivity.
  rewrite chunkText_long; rewrite ?Hsize, ?Hover, ?Hlen; try lia.
  - reflexivity.
  - change (window_count 9000 (4000 - 400) 0) with 3. lia.
Qed.

(** C9. A text no longer than the chunk size is its own single chunk.
    A document of 3000 characters makes [analyzeContract] call the
    extractor exactly once, on the whole document; a document of 9000
    characters is cut (size 4000, overlap 400) into exactly the three
    windows at offsets 0, 3600 and 7200, and the extractor is called
    exactly three times, once on each, whatever the services answer. *)
Theorem single_chunk_shortcut_and_extractor_calls :
  (forall fuel text chunkSize overlap,
     length text <= chunkSize ->
     chunkText fuel text chunkSize overlap = Some [text]) /\
  (forall h order documentText role,
     Z.of_nat (length documentText) = 3000%Z ->
     extractor_calls (snd (analyzeContract h order documentText role []))
     = [documentText]) /\
  (forall documentText,
     Z.of_nat (length documentText) = 9000%Z ->
     chunkText_returns documentText 4000 400
       [substring documentText 0 4000; substring documentText 3600 7600;
        substring documentText 7200 11200]) /\
  (forall h order documentText role,
     Z.of_nat (length documentText) = 9000%Z ->
     extractor_calls (snd (analyzeContract h order documentText role []))
     = [substring documentText 0 4000; substring documentText 3600 7600;
        substring documentText 7200 11200]).
Proof.
  split; [intros; now apply chunkText_short |].
  split; [| split].
  - intros h order documentText role Hlen.
    rewrite (analyzeContract_extractor_calls _ _ _ _ _ [documentText]);
      [reflexivity |].
    apply chunkText_short.
    assert (Hsize : Z.of_nat default_chunkSize = 4000%Z) by reflexivity. lia.
  - intros documentText Hlen. exists (length documentText).
    now apply chunks_of_9000.
  - intros h order documentText role Hlen.
    now rewrite (analyzeContract_extractor_calls _ _ _ _ _ _
                   (chunks_of_9000 _ Hlen)).
Qed.

Lemma single_chunk_shortcut_and_extractor_calls_witness :
  chunkText 0 (lit "abc") 3 1 = Some [lit "abc"] /\
  extractor_calls (snd (analyzeContract echo_host [0] doc_3000 (lit "tenant") []))
  = [doc_3000] /\
  chunkText_returns doc_9000 4000 400
    [substring doc_9000 0 4000; substring doc_9000 3600 7600;
     substring doc_9000 7200 11200] /\
  extractor_calls
    (snd (analyzeContract first_call_fails_host [2; 0; 1] doc_9000 (lit "tenant") []))
  = [substring doc_9000 0 4000; substring doc_9000 3600 7600;
     substring doc_9000 7200 11200].
Proof.
  pose proof single_chunk_shortcut_and_extractor_calls as (H1 & H2 & H3 & H4).
  split; [apply H1; simpl; lia |].
  split; [apply H2; reflexivity |].
  split; [apply H3; reflexivity | apply H4; reflexivity].
Defined.

(** C1, at the failing input.  With two chunks of which the first one's
    call to the chat model throws, the second chunk's extraction succeeds
    but [analyzeContract] throws the first one's error, whichever call
    completes first; a reply that does not parse, on the other hand, gives
    the empty list. *)
Theorem chat_failure_aborts_analysis :
  fst (start_all (fun chunk => analyzeChunk first_call_fails_host chunk (lit "tenant"))
         [take 4000 doc_two_chunks; drop 3600 doc_two_chunks] [])
  = [Throws (Thrown 1); Returns (JArr [JStr (lit "b")])] /\
  fst (analyzeContract first_call_fails_host [0; 1] doc_two_chunks (lit "tenant") [])
  = Throws (Thrown 1) /\
  fst (analyzeContract first_call_fails_host [1; 0] doc_two_chunks (lit "tenant") [])
  = Throws (Thrown 1) /\
  (forall h chunk role output log,
     chatComplete h log (ExtractRequest chunk role) = Returns output ->
     JSON_parse h (clean output) = None ->
     fst (analyzeChunk h chunk role log) = Returns (JArr [])).
Proof.
  split; [vm_compute; reflexivity |].
  split; [vm_compute; reflexivity |].
  split; [vm_compute; reflexivity |].
  apply analyzeChunk_unparseable.
Qed.

End OrchestratorFacts.

(** ** Properties of retrieval and of [simulateImpact] *)

Module RetrievalFacts.
Import Text Json Effects Chunker Service Examples.
Import ChunkerFacts.

(** [vectorRetrieveRelevantChunks] in one step. *)
Lemma vectorRetrieveRelevantChunks_run (h : host) (chunks : list jsstring)
    (query : jsstring) (topK : nat) (log : list event) :
  vectorRetrieveRelevantChunks h chunks query topK log
  = (match embedTexts h log (chunks ++ [query]) with
     | Returns vectors =>
         Returns
           (if negb (length vectors =? length (chunks ++ [query]))%nat then chunks
            else if (0 <? length (select_chunks h chunks vectors topK))%nat
                 then select_chunks h chunks vectors topK
                 else chunks)
     | Throws e => Returns chunks
     | Never => Never
     end, log ++ [EmbedCall (chunks ++ [query])]).
Proof.
  unfold vectorRetrieveRelevantChunks, try_catch, bind, call_embed, ret.
  destruct (embedTexts h log (chunks ++ [query])) as [vectors | e |];
    try reflexivity.
  destruct (negb (length vectors =? length (chunks ++ [query]))%nat); reflexivity.
Qed.

(** C7. [vectorRetrieveRelevantChunks] never throws.  It makes exactly one
    call to the embedding service, on the chunks followed by the query;
    when that call throws, or returns a number of vectors different from
    the number of inputs, the chunk list is returned as it was given. *)
Theorem retrieval_never_throws (h : host) (chunks : list jsstring)
    (query : jsstring) (topK : nat) (log : list event) :
  snd (vectorRetrieveRelevantChunks h chunks query topK log)
  = log ++ [EmbedCall (chunks ++ [query])] /\
  (forall e, fst (vectorRetrieveRelevantChunks h chunks query topK log) <> Throws e) /\
  (forall e,
     embedTexts h log (chunks ++ [query]) = Throws e ->
     fst (vectorRetrieveRelevantChunks h chunks query topK log) = Returns chunks) /\
  (forall vectors,
     embedTexts h log (chunks ++ [query]) = Returns vectors ->
     length vectors <> length (chunks ++ [query]) ->
     fst (vectorRetrieveRelevantChunks h chunks query topK log) = Returns chunks).
Proof.
  rewrite vectorRetrieveRelevantChunks_run. cbn [fst snd].
  split; [reflexivity |]. split; [| split].
  - intros e. destruct (embedTexts h log (chunks ++ [query])); discriminate.
  - intros e ->. reflexivity.
  - intros vectors -> Hcount.
    apply Nat.eqb_neq in Hcount. now rewrite Hcount.
Qed.

Lemma retrieval_never_throws_witness :
  fst (vectorRetrieveRelevantChunks echo_host [lit "one"; lit "two"] (lit "q") 6 [])
  = Returns [lit "one"; lit "two"] /\
  fst (vectorRetrieveRelevantChunks no_vectors_host [lit "one"; lit "two"] (lit "q") 6 [])
  = Returns [lit "one"; lit "two"].
Proof.
  split.
  - apply (proj1 (proj2 (proj2
             (retrieval_never_throws echo_host [lit "one"; lit "two"] (lit "q") 6 [])))
             (Thrown 0)).
    reflexivity.
  - apply (proj2 (proj2 (proj2
             (retrieval_never_throws no_vectors_host [lit "one"; lit "two"]
                (lit "q") 6 []))) []).
    + reflexivity.
    + simpl. lia.
Defined.

(** Sorting one item leaves it, whatever the engine. *)
Lemma sort_scored_single (h : host) (x : scored) : sort_scored h [x] = [x].
Proof.
  unfold sort_scored. destruct (existsb _ [x]); [| reflexivity].
  apply Permutation_length_1_inv. symmetry. apply engine_sort_reorders.
Qed.

(** With one chunk, the selection is that chunk. *)
Lemma select_chunks_single (h : host) (c : jsstring) (v0 v1 : list float)
    (k : nat) :
  select_chunks h [c] [v0; v1] (S k) = [c].
Proof.
  unfold select_chunks. cbn [length Nat.sub take imap].
  rewrite sort_scored_single. cbn [length].
  replace (Nat.min (S k) 1) with 1 by lia. reflexivity.
Qed.

(** Retrieval hands back at least one chunk when it is given one. *)
Lemma retrieval_nonempty (h : host) (chunks : list jsstring) (query : jsstring)
    (topK : nat) (log : list event) (relevant : list jsstring) :
  chunks <> [] ->
  fst (vectorRetrieveRelevantChunks h chunks query topK log) = Returns relevant ->
  relevant <> [].
Proof.
  intros Hne. rewrite vectorRetrieveRelevantChunks_run. cbn [fst].
  destruct (embedTexts h log (chunks ++ [query])) as [vectors | e |];
    try discriminate; [| now intros [= <-]].
  destruct (negb (length vectors =? length (chunks ++ [query]))%nat);
    [now intros [= <-] |].
  destruct (0 <? length (select_chunks h chunks vectors topK))%nat eqn:Hsel;
    [| now intros [= <-]].
  intros [= <-]. apply Nat.ltb_lt in Hsel.
  intros Hnil. rewrite Hnil in Hsel. simpl in Hsel. lia.
Qed.

(** [chunkText] never returns an empty list of chunks. *)
Lemma chunkText_nonempty (text : jsstring) (chunkSize overlap : nat)
    (chunks : list jsstring) :
  overlap < chunkSize ->
  chunkText_returns text chunkSize overlap chunks -> chunks <> [].
Proof.
  intros Hov Hret. destruct (le_lt_dec (length text) chunkSize) as [Hlen | Hlen].
  - assert (chunks = [text]) as ->; [| discriminate].
    apply (chunkText_returns_unique text chunkSize overlap); [assumption |].
    exists 0. now apply chunkText_short.
  - set (step := (Z.of_nat chunkSize - Z.of_nat overlap)%Z).
    set (n := window_count (Z.of_nat (length text)) step 0).
    assert (chunks = windows n text (Z.of_nat chunkSize) step 0) as ->.
    { apply (chunkText_returns_unique text chunkSize overlap); [assumption |].
      exists n. now apply chunkText_long. }
    assert (Hn : n = S (window_count (Z.of_nat (length text)) step (0 + step)))
      by (apply window_count_step; subst step; lia).
    rewrite Hn. discriminate.
Qed.

(** C4, as stated, fails on the empty document with a scenario that is
    not blank and a chat model that answers [answer]: the chat model is called, with empty excerpts, and
    its answer is returned instead of the explanatory message. *)
Lemma empty_document_counterexample :
  is_blank (lit "what if") = false /\
  simulateImpact answering_host [] (lit "what if") []
  = (Returns (lit "answer"),
     [EmbedCall [[]; lit "what if"];
      ChatCall (ScenarioRequest (lit "what if") [])]) /\
  lit "answer" <> nothing_found_message.
Proof.
  split; [reflexivity |].
  split; [vm_compute; reflexivity | discriminate].
Qed.

(** C4 (amended). In [simulateImpact], an empty retrieval result gives
    the explanatory message without a call to the chat model.  Retrieval
    never gives one, though: [chunkText] returns at least one chunk for
    every document, and retrieval returns at least one chunk when given
    one.  For the empty document and a scenario that is not blank, the
    single chunk is the empty string, and (unless the embedding call never
    completes) the chat model is called once, with empty excerpts, and
    its outcome is the outcome of [simulateImpact]. *)
Theorem simulateImpact_retrieval_guard (h : host) (scenario : jsstring)
    (log : list event) :
  answer_from h scenario [] log = (Returns nothing_found_message, log) /\
  (forall documentText,
     exists chunks,
       chunkText_returns documentText 1500 200 chunks /\
       chunks <> [] /\
       forall topK log0 relevant,
         fst (vectorRetrieveRelevantChunks h chunks scenario topK log0)
         = Returns relevant ->
         relevant <> []) /\
  (is_blank scenario = false ->
   embedTexts h log [[]; scenario] <> Never ->
   let log1 := log ++ [EmbedCall [[]; scenario]] in
   simulateImpact h [] scenario log
   = (chatComplete h log1 (ScenarioRequest scenario []),
      log1 ++ [ChatCall (ScenarioRequest scenario [])])).
Proof.
  split; [reflexivity |]. split.
  - intros documentText.
    destruct (chunkText_total documentText 1500 200 ltac:(lia)) as [chunks Hchunks].
    assert (Hret : chunkText_returns documentText 1500 200 chunks)
      by now exists (length documentText).
    assert (Hne : chunks <> []) by (eapply chunkText_nonempty; [| eassumption]; lia).
    exists chunks. repeat split; try assumption.
    intros topK log0 relevant. now apply retrieval_nonempty.
  - intros Hblank Hsettles log1.
    unfold simulateImpact. rewrite Hblank.
    unfold bind at 1.
    change (run_chunkText [] 1500 200 log) with (Returns [[] : jsstring], log).
    cbv iota. unfold bind. rewrite vectorRetrieveRelevantChunks_run.
    change ([[]] ++ [scenario]) with [[]; scenario] in *. fold log1.
    destruct (embedTexts h log [[]; scenario]) as [vectors | e |];
      [| reflexivity | contradiction].
    destruct vectors as [| v0 [| v1 [| v2 vectors]]]; try reflexivity.
    cbn [length Nat.eqb negb].
    now rewrite (select_chunks_single h [] v0 v1 5).
Qed.

Lemma simulateImpact_retrieval_guard_witness :
  answer_from answering_host (lit "what if") [] []
  = (Returns nothing_found_message, []) /\
  simulateImpact answering_host [] (lit "what if") []
  = (chatComplete answering_host [EmbedCall [[]; lit "what if"]]
       (ScenarioRequest (lit "what if") []),
     [EmbedCall [[]; lit "what if"]]
     ++ [ChatCall (ScenarioRequest (lit "what if") [])]).
Proof.
  split.
  - apply (proj1 (simulateImpact_retrieval_guard answering_host (lit "what if") [])).
  - apply (proj2 (proj2
             (simulateImpact_retrieval_guard answering_host (lit "what if") []))).
    + reflexivity.
    + discriminate.
Defined.

End RetrievalFacts.

(** ** The loop of [cosineSimilarity] *)

Module LoopFacts.

(** Reading two arrays by index from 0 is reading them side by side. *)
Lemma fold_left_nth_cons {T A} (step : T -> A -> A -> T) (d : A)
    (x : A) (a : list A) (y : A) (b : list A) (sums : T) :
  fold_left (fun s i => step s (nth i (x :: a) d) (nth i (y :: b) d))
            (seq 0 (S (length a))) sums
  = fold_left (fun s i => step s (nth i a d) (nth i b d))
              (seq 0 (length a)) (step sums x y).
Proof.
  cbn [seq fold_left nth]. rewrite <- seq_shift.
  generalize (step sums x y). generalize (seq 0 (length a)).
  intros l. induction l as [| i l IH]; intros s; cbn; [reflexivity | apply IH].
Qed.

(** A loop that keeps three sums side by side computes each of them. *)
Lemma fold_left_three_sums {T} (step : T * T * T -> T -> T -> T * T * T)
    (f : T -> T -> T -> T) (g k : T -> T -> T) (d : T) :
  (forall dot na nb x y, step (dot, na, nb) x y = (f dot x y, g na x, k nb y)) ->
  forall a b,
    length a = length b ->
    forall dot na nb,
      fold_left (fun s i => step s (nth i a d) (nth i b d))
                (seq 0 (length a)) (dot, na, nb)
      = (fold_left (fun acc xy => f acc (fst xy) (snd xy)) (combine a b) dot,
         fold_left g a na,
         fold_left k b nb).
Proof.
  intros Hstep a. induction a as [| x a IH]; intros [| y b] Hlen dot na nb;
    try discriminate; [reflexivity |].
  cbn [length]. rewrite fold_left_nth_cons, Hstep.
  cbn [combine fold_left fst snd]. apply IH. now injection Hlen.
Qed.

End LoopFacts.

(** ** Properties of the similarity formula in exact arithmetic *)

Module ExactFacts.
Import Reals Lra LoopFacts.
Local Open Scope R_scope.

Lemma bounded_sums_step (sums : R * R * R) (x y : R) :
  Exact.bounded_sums sums -> Exact.bounded_sums (Exact.cosine_step_exact sums x y).
Proof.
  destruct sums as [[dot na] nb]. simpl. intros (Hna & Hnb & Hdot).
  assert (Hcross : 2 * dot * x * y <= na * (y * y) + nb * (x * x)).
  { assert (Hp : 0 <= na * (y * y) + nb * (x * x)) by nra.
    assert (Hsq : (2 * dot * x * y) * (2 * dot * x * y)
                  <= (na * (y * y) + nb * (x * x)) * (na * (y * y) + nb * (x * x))).
    { assert (H1 : 0 <= (na * (y * y) - nb * (x * x)) * (na * (y * y) - nb * (x * x)))
        by exact (Rle_0_sqr _).
      assert (H2 : 0 <= (x * y) * (x * y)) by exact (Rle_0_sqr _).
      assert (H3 : (dot * dot) * ((x * y) * (x * y)) <= (na * nb) * ((x * y) * (x * y)))
        by (apply Rmult_le_compat_r; assumption).
      nra. }
    nra. }
  repeat split; nra.
Qed.

Lemma bounded_sums_fold (a b : list R) :
  length a = length b ->
  forall sums,
    Exact.bounded_sums sums ->
    Exact.bounded_sums
      (fold_left (fun s i => Exact.cosine_step_exact s (nth i a 0) (nth i b 0))
                 (seq 0 (length a)) sums).
Proof.
  revert b. induction a as [| x a IH]; intros [| y b] Hlen sums Hsums;
    try discriminate; [exact Hsums |].
  cbn [length]. rewrite fold_left_nth_cons.
  apply IH; [now injection Hlen | now apply bounded_sums_step].
Qed.

(** In exact arithmetic the similarity of two vectors of the same
    length lies between -1 and 1. *)
Lemma cosineSimilarity_in_range (a b : list R) :
  length a = length b -> -1 <= Exact.cosineSimilarity_exact a b <= 1.
Proof.
  intros Hlen. unfold Exact.cosineSimilarity_exact, Exact.cosine_sums_exact.
  pose proof (bounded_sums_fold a b Hlen (0, 0, 0)) as Hinv.
  destruct (fold_left _ _ _) as [[dot na] nb].
  assert (H0 : Exact.bounded_sums (0, 0, 0)) by (simpl; lra).
  specialize (Hinv H0). simpl in Hinv. destruct Hinv as (Hna & Hnb & Hdot).
  pose proof (sqrt_pos na) as Hsa. pose proof (sqrt_pos nb) as Hsb.
  pose proof (sqrt_sqrt na Hna) as Ha. pose proof (sqrt_sqrt nb Hnb) as Hb.
  set (sa := sqrt na) in *. set (sb := sqrt nb) in *.
  assert (Hprod : dot * dot <= (sa * sb) * (sa * sb)) by nra.
  destruct (Req_dec_T (sa * sb) 0) as [Hz | Hnz].
  - assert (dot = 0) by nra. subst dot. lra.
  - assert (Hpos : 0 < sa * sb) by nra.
    assert (Hle : dot <= sa * sb) by nra.
    assert (Hge : - (sa * sb) <= dot) by nra.
    split.
    + apply Rmult_le_reg_r with (sa * sb); [assumption |].
      unfold Rdiv. rewrite Rmult_assoc, Rinv_l by assumption. lra.
    + apply Rmult_le_reg_r with (sa * sb); [assumption |].
      unfold Rdiv. rewrite Rmult_assoc, Rinv_l by assumption. lra.
Qed.

(** Over the reals the loop computes the formula of the
    specification. *)
Lemma cosineSimilarity_exact_formula (a b : list R) :
  length a = length b ->
  Exact.cosineSimilarity_exact a b = Formula.cosine_formula Exact.reals a b.
Proof.
  intros Hlen. unfold Exact.cosineSimilarity_exact, Exact.cosine_sums_exact.
  rewrite (fold_left_three_sums Exact.cosine_step_exact
             (fun dot x y => dot + x * y) (fun na x => na + x * x)
             (fun nb y => nb + y * y) 0) by (reflexivity || assumption).
  unfold Formula.cosine_formula, Formula.floored_to_one, Formula.norm,
    Formula.dot_product, Formula.sum_of_squares.
  cbn [Exact.reals Formula.num_zero Formula.num_one Formula.num_add
       Formula.num_mul Formula.num_div Formula.num_sqrt Formula.num_falsy].
  now destruct (Req_dec_T _ 0).
Qed.

End ExactFacts.

(** ** Properties of [cosineSimilarity] on binary64 numbers *)

Module CosineFacts.
Import Service LoopFacts.

Lemma is_zero_spec (x : float) :
  is_zero x = true -> exists s, Prim2SF x = S754_zero s.
Proof.
  unfold is_zero. rewrite FloatAxioms.eqb_spec.
  change (Prim2SF zero) with (S754_zero false).
  destruct (Prim2SF x) as [s | s | | s m e]; cbn; try discriminate.
  - intros _. now exists s.
  - destruct s; discriminate.
  - destruct s; discriminate.
Qed.

Lemma is_finite_spec (x : float) :
  is_finite x = true ->
  (exists s, Prim2SF x = S754_zero s)
  \/ (exists s m e, Prim2SF x = S754_finite s m e).
Proof.
  unfold is_finite, is_nan, is_infinity.
  rewrite !FloatAxioms.eqb_spec, abs_spec.
  change (Prim2SF infinity) with (S754_infinity false).
  destruct (Prim2SF x) as [s | s | | s m e]; cbn.
  - left. now exists s.
  - destruct s; discriminate.
  - discriminate.
  - right. now exists s, m, e.
Qed.

Lemma plus_zero_eq (x : float) : Prim2SF x = S754_zero false -> x = 0%float.
Proof. intros Hx. now apply Prim2SF_inj. Qed.

(** Zero times a number that is not [NaN] or infinite is a zero. *)
Lemma zero_mul_finite (x y : float) :
  is_zero x = true -> is_finite y = true ->
  exists s, Prim2SF (x * y) = S754_zero s.
Proof.
  intros [s Hx]%is_zero_spec Hy%is_finite_spec. rewrite mul_spec, Hx.
  destruct Hy as [[t ->] | (t & m & e & ->)]; cbn; eauto.
Qed.

Lemma finite_mul_zero (x y : float) :
  is_finite x = true -> is_zero y = true ->
  exists s, Prim2SF (x * y) = S754_zero s.
Proof.
  intros Hx%is_finite_spec [s Hy]%is_zero_spec. rewrite mul_spec, Hy.
  destruct Hx as [[t ->] | (t & m & e & ->)]; cbn; eauto.
Qed.

Lemma zero_mul_zero (x : float) :
  is_zero x = true -> exists s, Prim2SF (x * x) = S754_zero s.
Proof.
  intros [s Hx]%is_zero_spec. rewrite mul_spec, Hx. cbn. eauto.
Qed.

(** Adding a zero of either sign to [+0] leaves [+0]. *)
Lemma plus_zero_add (d p : float) :
  Prim2SF d = S754_zero false ->
  (exists s, Prim2SF p = S754_zero s) ->
  Prim2SF (d + p) = S754_zero false.
Proof.
  intros Hd [s Hp]. rewrite add_spec, Hd, Hp. now destruct s.
Qed.

(** A product with a factor [sqrt z], [z] a zero, is zero or [NaN]: the
    denominator of [cosineSimilarity] then becomes 1. *)
Lemma sqrt_zero_product_falsy (na nb : float) :
  is_zero na || is_zero nb = true ->
  is_zero (sqrt na * sqrt nb) || is_nan (sqrt na * sqrt nb) = true.
Proof.
  intros Hz. unfold is_zero at 1, is_nan.
  rewrite !FloatAxioms.eqb_spec, mul_spec, !sqrt_spec.
  change (Prim2SF zero) with (S754_zero false).
  apply orb_true_iff in Hz. destruct Hz as [[s Hz]%is_zero_spec | [s Hz]%is_zero_spec];
    rewrite Hz.
  - destruct (SF64sqrt (Prim2SF nb)) as [t | t | | t m e]; reflexivity.
  - destruct (SF64sqrt (Prim2SF na)) as [t | t | | t m e]; reflexivity.
Qed.

(** The denominator is 1 as soon as one of the two sums of squares is zero. *)
Lemma cosineSimilarity_floor (a b : list float) :
  let '(dot, na, nb) := cosine_sums a b in
  is_zero na || is_zero nb = true ->
  cosineSimilarity a b = (dot / 1)%float.
Proof.
  unfold cosineSimilarity. destruct (cosine_sums a b) as [[dot na] nb].
  intros Hz. now rewrite (sqrt_zero_product_falsy na nb Hz).
Qed.

Lemma forallb_cons_true {A} (f : A -> bool) (x : A) (l : list A) :
  forallb f (x :: l) = true -> f x = true /\ forallb f l = true.
Proof. simpl. now intros [Hx Hl]%andb_true_iff. Qed.

(** A zero vector against a finite one: the dot product and the first
    sum of squares stay [+0]. *)
Lemma cosine_sums_zero_left (a b : list float) :
  length a = length b ->
  zero_vector a = true -> finite_vector b = true ->
  forall dot na nb,
    Prim2SF dot = S754_zero false -> Prim2SF na = S754_zero false ->
    exists nb',
      fold_left (fun s i => cosine_step s (nth i a nan) (nth i b nan))
                (seq 0 (length a)) (dot, na, nb)
      = (0%float, 0%float, nb').
Proof.
  revert b. induction a as [| x a IH]; intros [| y b] Hlen Ha Hb dot na nb Hdot Hna;
    try discriminate.
  - exists nb. cbn. now rewrite (plus_zero_eq dot Hdot), (plus_zero_eq na Hna).
  - apply forallb_cons_true in Ha. apply forallb_cons_true in Hb.
    destruct Ha as [Hx Ha]. destruct Hb as [Hy Hb].
    cbn [length]. rewrite fold_left_nth_cons. cbn [cosine_step].
    apply IH; try assumption; [now injection Hlen | |].
    + apply plus_zero_add; [assumption | now apply zero_mul_finite].
    + apply plus_zero_add; [assumption | now apply zero_mul_zero].
Qed.

Lemma cosine_sums_zero_right (a b : list float) :
  length a = length b ->
  finite_vector a = true -> zero_vector b = true ->
  forall dot na nb,
    Prim2SF dot = S754_zero false -> Prim2SF nb = S754_zero false ->
    exists na',
      fold_left (fun s i => cosine_step s (nth i a nan) (nth i b nan))
                (seq 0 (length a)) (dot, na, nb)
      = (0%float, na', 0%float).
Proof.
  revert b. induction a as [| x a IH]; intros [| y b] Hlen Ha Hb dot na nb Hdot Hnb;
    try discriminate.
  - exists na. cbn. now rewrite (plus_zero_eq dot Hdot), (plus_zero_eq nb Hnb).
  - apply forallb_cons_true in Ha. apply forallb_cons_true in Hb.
    destruct Ha as [Hx Ha]. destruct Hb as [Hy Hb].
    cbn [length]. rewrite fold_left_nth_cons. cbn [cosine_step].
    apply IH; try assumption; [now injection Hlen | |].
    + apply plus_zero_add; [assumption | now apply finite_mul_zero].
    + apply plus_zero_add; [assumption | now apply zero_mul_zero].
Qed.

(** The similarity of a zero vector and a finite vector of the same
    length is [+0]. *)
Lemma cosineSimilarity_zero_vector (a b : list float) :
  length a = length b ->
  (zero_vector a = true /\ finite_vector b = true)
  \/ (finite_vector a = true /\ zero_vector b = true) ->
  cosineSimilarity a b = 0%float.
Proof.
  intros Hlen [[Ha Hb] | [Ha Hb]].
  - destruct (cosine_sums_zero_left a b Hlen Ha Hb 0 0 0 eq_refl eq_refl)
      as [nb' Hsums].
    pose proof (cosineSimilarity_floor a b) as Hfloor.
    unfold cosine_sums in Hfloor. rewrite Hsums in Hfloor.
    now rewrite Hfloor.
  - destruct (cosine_sums_zero_right a b Hlen Ha Hb 0 0 0 eq_refl eq_refl)
      as [na' Hsums].
    pose proof (cosineSimilarity_floor a b) as Hfloor.
    unfold cosine_sums in Hfloor. rewrite Hsums in Hfloor.
    rewrite Hfloor; [reflexivity |]. apply orb_true_r.
Qed.

(** On binary64 numbers the loop computes the formula of the
    specification. *)
Lemma cosineSimilarity_formula (a b : list float) :
  length a = length b ->
  cosineSimilarity a b = Formula.cosine_formula Formula.binary64 a b.
Proof.
  intros Hlen. unfold cosineSimilarity, cosine_sums.
  rewrite (fold_left_three_sums cosine_step
             (fun dot x y => dot + x * y)%float (fun na x => na + x * x)%float
             (fun nb y => nb + y * y)%float nan) by (reflexivity || assumption).
  reflexivity.
Qed.

(** C6, as stated, fails on two vectors of the same length without a
    zero entry.  On [1, 1, 1]
    against itself the three sums are 3, [sqrt 3 * sqrt 3] rounds below 3
    and the quotient is the binary64 number after 1.  On [2^600]
    against itself the sums overflow and the quotient is [NaN]. *)
Lemma cosineSimilarity_out_of_range_counterexample :
  cosineSimilarity [1; 1; 1]%float [1; 1; 1]%float = 0x1.0000000000001p+0%float /\
  (1 <? cosineSimilarity [1; 1; 1]%float [1; 1; 1]%float)%float = true /\
  is_nan (cosineSimilarity [0x1p+600]%float [0x1p+600]%float) = true.
Proof. repeat split; vm_compute; reflexivity. Qed.

Import Reals.
Local Close Scope R_scope.

(** C6 (amended). On two vectors of the same length [cosineSimilarity]
    is the formula of the specification in binary64 arithmetic: the dot
    product divided by the product of the square roots of the two sums
    of squares, the denominator being 1 when that product is zero or
    [NaN], as it is when one of the sums is zero; for a zero vector
    against a finite vector of the same length the result is [+0].  The
    loop over the reals is the same formula in exact arithmetic, where
    it lies between -1 and 1; the binary64 result need not. *)
Theorem cosineSimilarity_bounds :
  (forall a b,
     length a = length b ->
     cosineSimilarity a b = Formula.cosine_formula Formula.binary64 a b) /\
  (forall a b,
     let '(dot, na, nb) := cosine_sums a b in
     is_zero na || is_zero nb = true ->
     cosineSimilarity a b = (dot / 1)%float) /\
  (forall a b,
     length a = length b ->
     (zero_vector a = true /\ finite_vector b = true)
     \/ (finite_vector a = true /\ zero_vector b = true) ->
     cosineSimilarity a b = 0%float) /\
  (forall a b : list R,
     length a = length b ->
     Exact.cosineSimilarity_exact a b = Formula.cosine_formula Exact.reals a b /\
     (-1 <= Formula.cosine_formula Exact.reals a b <= 1)%R) /\
  (forall a b : list R,
     length a = length b ->
     (-1 <= Exact.cosineSimilarity_exact a b <= 1)%R).
Proof.
  split; [exact cosineSimilarity_formula |].
  split; [exact cosineSimilarity_floor |].
  split; [exact cosineSimilarity_zero_vector |].
  split; [| exact ExactFacts.cosineSimilarity_in_range].
  intros a b Hlen.
  split; [now apply ExactFacts.cosineSimilarity_exact_formula |].
  rewrite <- ExactFacts.cosineSimilarity_exact_formula by assumption.
  now apply ExactFacts.cosineSimilarity_in_range.
Qed.

Lemma cosineSimilarity_bounds_witness :
  cosineSimilarity [3; 4]%float [4; 3]%float
  = Formula.cosine_formula Formula.binary64 [3; 4]%float [4; 3]%float /\
  cosineSimilarity [0; -0]%float [-1; 3]%float = 0%float /\
  (-1 <= Formula.cosine_formula Exact.reals [1; 1; 1]%R [1; 1; 1]%R <= 1)%R /\
  (-1 <= Exact.cosineSimilarity_exact [1; 1; 1]%R [1; 1; 1]%R <= 1)%R.
Proof.
  split; [| split; [| split]].
  - apply (proj1 cosineSimilarity_bounds). reflexivity.
  - apply (proj1 (proj2 (proj2 cosineSimilarity_bounds))); [reflexivity |].
    left. split; reflexivity.
  - apply (proj1 (proj2 (proj2 (proj2 cosineSimilarity_bounds)))). reflexivity.
  - apply (proj2 (proj2 (proj2 (proj2 cosineSimilarity_bounds)))). reflexivity.
Defined.

End CosineFacts.

(** ** Further properties of the chunker *)

Module ChunkerExtras.
Import Chunker ChunkerFacts.

Lemma substring_length_le (s : jsstring) (a b : Z) :
  (0 <= a <= b)%Z -> length (substring s a b) <= Z.to_nat (b - a).
Proof.
  intros Hab. rewrite substring_take_drop by assumption.
  rewrite length_take. lia.
Qed.

(** What [chunkText] returns on a text longer than the chunk size. *)
Lemma chunkText_returns_windows (text : jsstring) (chunkSize overlap : nat)
    (chunks : list jsstring) :
  chunkSize < length text ->
  chunkText_returns text chunkSize overlap chunks ->
  overlap < chunkSize /\
  chunks = windows (window_count (Z.of_nat (length text))
                      (Z.of_nat chunkSize - Z.of_nat overlap) 0)
             text (Z.of_nat chunkSize)
             (Z.of_nat chunkSize - Z.of_nat overlap) 0.
Proof.
  intros Hlen Hret. destruct (le_lt_dec chunkSize overlap) as [Hov | Hov].
  - destruct Hret as [fuel Hfuel]. unfold chunkText in Hfuel.
    destruct (Z.leb_spec (Z.of_nat (length text)) (Z.of_nat chunkSize)); [lia |].
    rewrite chunkText_loop_stuck in Hfuel by lia. discriminate.
  - split; [assumption |].
    apply (chunkText_returns_unique text chunkSize overlap); [assumption |].
    eexists. apply chunkText_long; [assumption | assumption | reflexivity].
Qed.

(** X1. Whenever [chunkText] returns, no chunk is longer than the chunk
    size, and no chunk of a text that is not empty is empty. *)
Theorem chunk_lengths (text : jsstring) (chunkSize overlap : nat)
    (chunks : list jsstring) :
  chunkText_returns text chunkSize overlap chunks ->
  Forall (fun c => length c <= chunkSize) chunks /\
  (text <> [] -> Forall (fun c => c <> []) chunks).
Proof.
  intros Hret. destruct (le_lt_dec (length text) chunkSize) as [Hlen | Hlen].
  - assert (chunks = [text]) as ->.
    { apply (chunkText_returns_unique text chunkSize overlap); [assumption |].
      exists 0. now apply chunkText_short. }
    split; [| intros Hne]; repeat constructor; assumption.
  - destruct (chunkText_returns_windows _ _ _ _ Hlen Hret) as [Hov ->].
    set (step := (Z.of_nat chunkSize - Z.of_nat overlap)%Z).
    set (n := window_count (Z.of_nat (length text)) step 0).
    assert (Hstep : (0 < step)%Z) by (subst step; lia).
    split; [| intros _]; apply Forall_lookup; intros k c Hc.
    + assert (Hk : k < n)
        by (apply lookup_lt_Some in Hc; now rewrite windows_length in Hc).
      rewrite windows_lookup in Hc by assumption. injection Hc as <-.
      etransitivity; [apply substring_length_le; lia |]. lia.
    + assert (Hk : k < n)
        by (apply lookup_lt_Some in Hc; now rewrite windows_length in Hc).
      pose proof (window_count_lt _ step Hstep k 0%Z Hk) as Hin.
      rewrite windows_lookup in Hc by assumption. injection Hc as <-.
      rewrite substring_take_drop by lia.
      intros Hnil. apply (f_equal length) in Hnil.
      rewrite length_take, length_drop in Hnil. simpl in Hnil. lia.
Qed.

Lemma chunk_lengths_witness :
  Forall (fun c => length c <= 4)
         [lit "abcd"; lit "cdef"; lit "efg"; lit "g"] /\
  (lit "abcdefg" <> [] ->
   Forall (fun c => c <> []) [lit "abcd"; lit "cdef"; lit "efg"; lit "g"]).
Proof.
  apply (chunk_lengths (lit "abcdefg") 4 2). exists 4. reflexivity.
Defined.

(** X2. For [overlap < chunkSize < length text], [chunkText] returns
    [ceil (length text / (chunkSize - overlap))] chunks, and the chunk at
    position [k] is the window of [chunkSize] characters that starts at
    offset [k * (chunkSize - overlap)], cut at the end of the text. *)
Theorem chunk_count_and_offsets (text : jsstring) (chunkSize overlap : nat) :
  overlap < chunkSize -> chunkSize < length text ->
  exists chunks,
    chunkText_returns text chunkSize overlap chunks /\
    let step := (Z.of_nat chunkSize - Z.of_nat overlap)%Z in
    Z.of_nat (length chunks)
    = ((Z.of_nat (length text) + step - 1) / step)%Z /\
    forall k, k < length chunks ->
      chunks !! k
      = Some (substring text (Z.of_nat k * step)
                        (Z.of_nat k * step + Z.of_nat chunkSize)).
Proof.
  intros Hov Hlen.
  set (step := (Z.of_nat chunkSize - Z.of_nat overlap)%Z).
  set (n := window_count (Z.of_nat (length text)) step 0).
  exists (windows n text (Z.of_nat chunkSize) step 0). split.
  { exists n. now apply chunkText_long. }
  cbv zeta. fold step. rewrite windows_length. split.
  - subst n. unfold window_count.
    replace (Z.of_nat (length text) - 0 + step - 1)%Z
      with (Z.of_nat (length text) + step - 1)%Z by lia.
    apply Z2Nat.id. apply Z.div_pos; subst step; lia.
  - intros k Hk. rewrite windows_lookup by assumption. do 2 f_equal; lia.
Qed.

Lemma chunk_count_and_offsets_witness :
  exists chunks,
    chunkText_returns (lit "abcdefg") 4 2 chunks /\
    let step := (Z.of_nat 4 - Z.of_nat 2)%Z in
    Z.of_nat (length chunks)
    = ((Z.of_nat (length (lit "abcdefg")) + step - 1) / step)%Z /\
    forall k, k < length chunks ->
      chunks !! k
      = Some (substring (lit "abcdefg") (Z.of_nat k * step)
                        (Z.of_nat k * step + Z.of_nat 4)).
Proof.
  apply (chunk_count_and_offsets (lit "abcdefg") 4 2); simpl; lia.
Defined.

End ChunkerExtras.

(** ** Further properties of trimming and cleaning *)

Module TextExtras.
Import Text.

Lemma trimStart_nil_iff (s : jsstring) :
  trimStart s = [] <-> forallb is_whitespace s = true.
Proof.
  induction s as [| c s IH]; simpl; [tauto |].
  destruct (is_whitespace c); simpl; [exact IH |].
  split; discriminate.
Qed.

Lemma trimStart_head (s : jsstring) (c : codeunit) (rest : jsstring) :
  trimStart s = c :: rest -> is_whitespace c = false.
Proof.
  induction s as [| x s IH]; simpl; [discriminate |].
  destruct (is_whitespace x) eqn:Hx; [exact IH |].
  now intros [= <- _].
Qed.

(** [trimStart] only removes a prefix, made of white space. *)
Lemma trimStart_suffix (s : jsstring) :
  exists prefix,
    s = prefix ++ trimStart s /\ forallb is_whitespace prefix = true.
Proof.
  induction s as [| x s (prefix & Hs & Hws)]; simpl; [now exists [] |].
  destruct (is_whitespace x) eqn:Hx.
  - exists (x :: prefix). simpl. rewrite Hx, Hws. split; [now f_equal | reflexivity].
  - now exists [].
Qed.

(** [trimEnd] only removes a suffix, made of white space. *)
Lemma trimEnd_prefix (s : jsstring) :
  exists suffix,
    s = trimEnd s ++ suffix /\ forallb is_whitespace suffix = true.
Proof.
  destruct (trimStart_suffix (rev s)) as (prefix & Hs & Hws).
  exists (rev prefix). split.
  - unfold trimEnd. rewrite <- rev_app_distr, <- Hs. now rewrite rev_involutive.
  - rewrite forallb_forall in *. intros x Hx. apply Hws.
    now apply in_rev.
Qed.

Lemma trim_no_leading_space (s : jsstring) (c : codeunit) (rest : jsstring) :
  trim s = c :: rest -> is_whitespace c = false.
Proof.
  unfold trim. intros Htrim.
  destruct (trimEnd_prefix (trimStart s)) as (suffix & Hs & _).
  rewrite Htrim in Hs. simpl in Hs.
  now apply trimStart_head in Hs.
Qed.

Lemma trim_no_trailing_space (s : jsstring) (c : codeunit) (front : jsstring) :
  trim s = front ++ [c] -> is_whitespace c = false.
Proof.
  unfold trim, trimEnd. intros Htrim.
  apply (f_equal (@rev codeunit)) in Htrim.
  rewrite rev_involutive, rev_app_distr in Htrim. simpl in Htrim.
  now apply trimStart_head in Htrim.
Qed.

(** [!s.trim()] holds exactly for the strings made of white space only. *)
Lemma is_blank_spec (s : jsstring) :
  is_blank s = forallb is_whitespace s.
Proof.
  unfold is_blank, trim.
  destruct (forallb is_whitespace s) eqn:Hall.
  - apply trimStart_nil_iff in Hall. now rewrite Hall.
  - destruct (trimStart s) as [| c rest] eqn:Hstart.
    + apply trimStart_nil_iff in Hstart. congruence.
    + pose proof (trimStart_head _ _ _ Hstart) as Hc.
      destruct (trimEnd (c :: rest)) as [| x xs] eqn:Hend; [| reflexivity].
      unfold trimEnd in Hend. apply (f_equal (@rev codeunit)) in Hend.
      rewrite rev_involutive in Hend. simpl in Hend.
      apply trimStart_nil_iff in Hend.
      rewrite forallb_app in Hend. simpl in Hend. rewrite Hc in Hend.
      rewrite andb_false_r in Hend. discriminate.
Qed.

(** X3. The text [tryParseJson] hands to [JSON.parse] neither starts nor
    ends with white space, whatever the reply was; and cleaning a reply
    that is white space only gives the empty text. *)
Theorem clean_is_trimmed (text : jsstring) :
  (forall c rest, clean text = c :: rest -> is_whitespace c = false) /\
  (forall front c, clean text = front ++ [c] -> is_whitespace c = false) /\
  (forallb is_whitespace text = true -> clean text = []).
Proof.
  unfold clean. split; [| split].
  - intros c rest. apply trim_no_leading_space.
  - intros front c. apply trim_no_trailing_space.
  - intros Hws.
    assert (Htrim : trim text = []).
    { pose proof (is_blank_spec text) as Hb. rewrite Hws in Hb.
      unfold is_blank in Hb. now destruct (trim text). }
    rewrite Htrim. reflexivity.
Qed.

Lemma clean_is_trimmed_witness :
  is_whitespace 123%N = false /\
  is_whitespace 125%N = false /\
  clean [32; 10; 9]%N = [].
Proof.
  pose proof (clean_is_trimmed ([32; 10]%N ++ lit "{}" ++ [10]%N)) as (H1 & H2 & _).
  pose proof (clean_is_trimmed [32; 10; 9]%N) as (_ & _ & H3).
  split; [apply (H1 123%N [125%N]); reflexivity |].
  split; [apply (H2 [123%N] 125%N); reflexivity |].
  apply H3. reflexivity.
Defined.

End TextExtras.

(** ** Further properties of retrieval and of [simulateImpact] *)

Module RetrievalExtras.
Import Text Json Effects Chunker Service Examples MoreExamples.
Import ChunkerFacts RetrievalFacts TextExtras.

Lemma insert_scored_perm (x : scored) (l : list scored) :
  insert_scored x l ≡ₚ x :: l.
Proof.
  induction l as [| y l IH]; simpl; [reflexivity |].
  destruct (0 <? score y - score x)%float; [| reflexivity].
  rewrite IH. apply perm_swap.
Qed.

(** Sorting only reorders, whether the comparator is consistent or the
    order is the engine's. *)
Lemma sort_scored_perm (h : host) (l : list scored) : sort_scored h l ≡ₚ l.
Proof.
  unfold sort_scored.
  destruct (existsb _ l); [apply engine_sort_reorders |].
  induction l as [| x l IH]; simpl; [reflexivity |].
  rewrite insert_scored_perm. now rewrite IH.
Qed.

Lemma scored_indices (f : list float -> float) (vecs : list (list float)) :
  map idx (imap (fun i vec => {| idx := i; score := f vec |}) vecs)
  = seq 0 (length vecs).
Proof.
  change (map idx) with (fmap (M := list) idx).
  rewrite fmap_imap.
  rewrite (imap_ext _ (fun j _ => id (0 + j))) by reflexivity.
  rewrite imap_seq. apply list_fmap_id.
Qed.

(** The indices behind the chunks [select_chunks] picks: pairwise
    distinct, in range, [min topK n] of them. *)
Lemma select_chunks_indices (h : host) (chunks : list jsstring)
    (vectors : list (list float)) (topK : nat) :
  length vectors = S (length chunks) ->
  exists idxs,
    NoDup idxs /\
    Forall (fun i => i < length chunks) idxs /\
    length idxs = Nat.min topK (length chunks) /\
    select_chunks h chunks vectors topK = map (fun i => nth i chunks []) idxs.
Proof.
  intros Hlen. unfold select_chunks.
  set (queryVec := nth (length vectors - 1) vectors []).
  set (chunkVecs := take (length vectors - 1) vectors).
  set (ranked := sort_scored h (imap _ chunkVecs)).
  assert (Hvecs : length chunkVecs = length chunks)
    by (subst chunkVecs; rewrite length_take; lia).
  assert (Hperm : map idx ranked ≡ₚ seq 0 (length chunks)).
  { subst ranked. rewrite sort_scored_perm.
    now rewrite (scored_indices (fun vec => cosineSimilarity vec queryVec)), Hvecs. }
  assert (Hranked : length ranked = length chunks).
  { rewrite <- (length_map idx ranked), Hperm. apply length_seq. }
  exists (map idx (take (Nat.min topK (length ranked)) ranked)).
  repeat split.
  - change (map idx) with (fmap (M := list) idx). rewrite fmap_take.
    apply (sublist_NoDup _ (idx <$> ranked)); [| apply sublist_take].
    change (fmap (M := list) idx) with (map idx).
    rewrite Hperm. apply NoDup_seq.
  - apply Forall_forall. intros i Hi.
    change (map idx) with (fmap (M := list) idx) in Hi. rewrite fmap_take in Hi.
    apply subseteq_take in Hi.
    change (fmap (M := list) idx) with (map idx) in Hi.
    rewrite Hperm in Hi. apply elem_of_seq in Hi. lia.
  - rewrite length_map, length_take. lia.
  - now rewrite map_map.
Qed.

(** X4. When the embedding service returns one vector per input,
    [vectorRetrieveRelevantChunks] returns [min topK n] of the [n] chunks,
    taken at pairwise distinct positions of the chunk list (no chunk is
    returned twice, none is invented), whatever order the sort leaves
    the scores in, [NaN] scores included; with [topK = 0] it returns all
    chunks. *)
Theorem retrieval_selection (h : host) (chunks : list jsstring)
    (query : jsstring) (topK : nat) (log : list event)
    (vectors : list (list float)) :
  embedTexts h log (chunks ++ [query]) = Returns vectors ->
  length vectors = S (length chunks) ->
  exists idxs,
    NoDup idxs /\
    Forall (fun i => i < length chunks) idxs /\
    length idxs = Nat.min topK (length chunks) /\
    fst (vectorRetrieveRelevantChunks h chunks query topK log)
    = Returns (if (0 <? topK)%nat then map (fun i => nth i chunks []) idxs
               else chunks).
Proof.
  intros Hembed Hlen.
  destruct (select_chunks_indices h chunks vectors topK Hlen)
    as (idxs & Hnodup & Hrange & Hcount & Hsel).
  exists idxs. repeat split; try assumption.
  rewrite vectorRetrieveRelevantChunks_run, Hembed. cbn [fst].
  rewrite length_app. cbn [length].
  replace (length vectors =? length chunks + 1)%nat with true
    by (symmetry; apply Nat.eqb_eq; lia).
  cbn [negb]. rewrite Hsel, length_map, Hcount. f_equal.
  destruct topK as [| k]; [reflexivity |].
  destruct chunks as [| c chunks]; [| reflexivity].
  destruct idxs; [reflexivity | discriminate].
Qed.

Lemma retrieval_selection_witness :
  exists idxs,
    NoDup idxs /\
    Forall (fun i => i < 3) idxs /\
    length idxs = Nat.min 2 3 /\
    fst (vectorRetrieveRelevantChunks reversing_host
           [lit "one"; lit "two"; lit "three"] (lit "q") 2 [])
    = Returns (map (fun i => nth i [lit "one"; lit "two"; lit "three"] []) idxs).
Proof.
  apply (retrieval_selection reversing_host [lit "one"; lit "two"; lit "three"]
           (lit "q") 2 [] [[nan]; [1]; [1]; [1]]%float); reflexivity.
Defined.

(** X5. A scenario made of white space only (the empty one included)
    gets the fixed prompt-for-input message: no chunking result is used
    and neither the embedding service nor the chat model is called. *)
Theorem blank_scenario_guard (h : host) (documentText scenario : jsstring)
    (log : list event) :
  forallb is_whitespace scenario = true ->
  simulateImpact h documentText scenario log = (Returns no_scenario_message, log).
Proof.
  intros Hws. unfold simulateImpact. now rewrite is_blank_spec, Hws.
Qed.

Lemma blank_scenario_guard_witness :
  simulateImpact chat_down_host doc_two_chunks [32; 9; 10]%N []
  = (Returns no_scenario_message, []).
Proof.
  apply (blank_scenario_guard chat_down_host doc_two_chunks [32; 9; 10]%N []).
  reflexivity.
Defined.

Lemma join_singleton (sep s : jsstring) : join sep [s] = s.
Proof. reflexivity. Qed.

(** X6. A document of at most 1500 characters is sent to the chat model
    whole: for a scenario that is not blank, [simulateImpact] makes one
    embedding call on the document and the scenario, then (whatever that
    call returns or throws, unless it never completes) one chat call
    whose excerpts are the document itself, and the outcome of that call,
    value or error, is the outcome of [simulateImpact]. *)
Theorem short_document_sent_whole (h : host) (documentText scenario : jsstring)
    (log : list event) :
  length documentText <= 1500 ->
  is_blank scenario = false ->
  embedTexts h log [documentText; scenario] <> Never ->
  let log1 := log ++ [EmbedCall [documentText; scenario]] in
  simulateImpact h documentText scenario log
  = (chatComplete h log1 (ScenarioRequest scenario documentText),
     log1 ++ [ChatCall (ScenarioRequest scenario documentText)]).
Proof.
  intros Hlen Hblank Hsettles log1.
  unfold simulateImpact. rewrite Hblank.
  unfold bind at 1. unfold run_chunkText.
  rewrite chunkText_short by assumption. unfold ret at 1.
  unfold bind. rewrite vectorRetrieveRelevantChunks_run.
  change ([documentText] ++ [scenario]) with [documentText; scenario] in *.
  fold log1.
  destruct (embedTexts h log [documentText; scenario]) as [vectors | e |];
    [| reflexivity | contradiction].
  destruct vectors as [| v0 [| v1 [| v2 vectors]]]; try reflexivity.
  cbn [length Nat.eqb negb].
  rewrite (select_chunks_single h documentText v0 v1 5).
  reflexivity.
Qed.

Lemma short_document_sent_whole_witness :
  simulateImpact chat_down_host (lit "rent is due monthly") (lit "what if") []
  = (Throws (Thrown 7),
     [EmbedCall [lit "rent is due monthly"; lit "what if"];
      ChatCall (ScenarioRequest (lit "what if") (lit "rent is due monthly"))]).
Proof.
  apply (short_document_sent_whole chat_down_host (lit "rent is due monthly")
           (lit "what if") []).
  - simpl. lia.
  - reflexivity.
  - discriminate.
Defined.

End RetrievalExtras.

(** ** Further properties of [analyzeContract] and [synthesizeReport] *)

Module OrchestratorExtras.
Import Text Json Effects Chunker Service Examples MoreExamples AnalysisLog.
Import ChunkerFacts EffectsFacts ExtractorFacts OrchestratorFacts.

Lemma chunkText_returns_run (text : jsstring) (chunkSize overlap : nat)
    (chunks : list jsstring) :
  chunkText_returns text chunkSize overlap chunks ->
  chunkText (length text) text chunkSize overlap = Some chunks.
Proof.
  intros Hret.
  destruct (chunkText (length text) text chunkSize overlap) as [cs |] eqn:Hrun.
  - f_equal. apply (chunkText_returns_unique text chunkSize overlap);
      [now exists (length text) | assumption].
  - apply chunkText_none_iff_diverges in Hrun. destruct Hret as [fuel Hfuel].
    rewrite Hrun in Hfuel. discriminate.
Qed.

Lemma start_all_cons {A B} (f : A -> M B) (x : A) (xs : list A)
    (log : list event) :
  fst (start_all f (x :: xs) log)
  = fst (f x log) :: fst (start_all f xs (snd (f x log))).
Proof.
  cbn [start_all]. destruct (f x log) as [p log1]. cbn [snd].
  now destruct (start_all f xs log1).
Qed.

(** The promise for the chunk at position [i] is the one its own call
    leaves, made after the calls for the chunks before it. *)
Lemma start_all_lookup (h : host) (role : jsstring) (chunks : list jsstring)
    (log : list event) (i : nat) (chunk : jsstring) :
  chunks !! i = Some chunk ->
  fst (start_all (fun c => analyzeChunk h c role) chunks log) !! i
  = Some (fst (analyzeChunk h chunk role
                 (log ++ extractor_events role (take i chunks)))).
Proof.
  revert log i. induction chunks as [| c chunks IH]; intros log i Hi;
    [discriminate |].
  rewrite start_all_cons.
  destruct i as [| i]; cbn [lookup list_lookup].
  - injection Hi as <-. cbn [take extractor_events map].
    now rewrite app_nil_r.
  - rewrite (IH _ i Hi). rewrite (analyzeChunk_run h c role log). cbn [snd].
    cbn [take extractor_events map]. now rewrite <- app_assoc.
Qed.

(** Promises that all fulfil, read as the list of their values. *)
Lemma promises_all_return {B} (P : B -> Prop) (promises : list (outcome B)) :
  (forall i p, promises !! i = Some p -> exists v, p = Returns v /\ P v) ->
  exists results, promises = map Returns results /\ Forall P results.
Proof.
  induction promises as [| p promises IH]; intros Hall.
  - now exists [].
  - destruct (Hall 0 p eq_refl) as (v & -> & HP).
    destruct IH as (results & -> & HPs).
    { intros i q Hq. apply (Hall (S i) q Hq). }
    exists (v :: results). split; [reflexivity | now constructor].
Qed.

(** The extractor calls of a run all return a value that satisfies [P]
    when each does so at the moment it is made. *)
Lemma start_all_return_at_issue (h : host) (role : jsstring) (P : json -> Prop)
    (chunks : list jsstring) (log : list event) :
  (forall i chunk,
     chunks !! i = Some chunk ->
     exists v,
       fst (analyzeChunk h chunk role (issue_log log role chunks i)) = Returns v
       /\ P v) ->
  exists results,
    fst (start_all (fun chunk => analyzeChunk h chunk role) chunks
           (announced log (length chunks)))
    = map Returns results /\ Forall P results.
Proof.
  intros Hall. apply promises_all_return. intros i p Hp.
  assert (Hi : i < length chunks).
  { apply lookup_lt_Some in Hp. now rewrite start_all_length in Hp. }
  destruct (lookup_lt_is_Some_2 chunks i Hi) as [chunk Hchunk].
  rewrite (start_all_lookup h role chunks _ i chunk Hchunk) in Hp.
  injection Hp as <-. exact (Hall i chunk Hchunk).
Qed.

Lemma flat_nothing (results : list json) :
  Forall (fun v => items_of v = []) results -> flat results = [].
Proof.
  unfold flat. induction 1 as [| v vs Hv _ IH]; simpl; [reflexivity |].
  now rewrite Hv, IH.
Qed.

Lemma chat_calls_app (l1 l2 : list event) :
  chat_calls (l1 ++ l2) = chat_calls l1 ++ chat_calls l2.
Proof. apply omap_app. Qed.

Lemma chat_calls_extractor_events (role : jsstring) (chunks : list jsstring) :
  chat_calls (extractor_events role chunks)
  = map (fun chunk => ExtractRequest chunk role) chunks.
Proof. induction chunks as [| c chunks IH]; simpl; [| rewrite IH]; reflexivity. Qed.

(** X7. Zero-clause failure: when every extractor call of the run
    completes and returns, at the moment it is made, a value without any
    clause in it, [analyzeContract] throws the "No legal clauses were
    identified" error, and the chat model has been called for the chunks
    only: the synthesizer is not called.  What the extractor would
    return at any other moment plays no part. *)
Theorem zero_clause_failure (h : host) (order : list nat)
    (documentText role : jsstring) (log : list event) (chunks : list jsstring) :
  chunkText_returns documentText default_chunkSize default_overlap chunks ->
  (forall i, i < length chunks -> i ∈ order) ->
  (forall i chunk,
     chunks !! i = Some chunk ->
     exists v,
       fst (analyzeChunk h chunk role (issue_log log role chunks i)) = Returns v
       /\ items_of v = []) ->
  fst (analyzeContract h order documentText role log)
  = Throws (Error no_clauses_message) /\
  chat_calls (snd (analyzeContract h order documentText role log))
  = chat_calls log ++ map (fun chunk => ExtractRequest chunk role) chunks.
Proof.
  intros Hret Horder Hempty. apply chunkText_returns_run in Hret.
  rewrite (analyzeContract_run _ _ _ _ _ _ Hret).
  fold (announced log (length chunks)).
  destruct (start_all_return_at_issue h role (fun v => items_of v = [])
              chunks log Hempty)
    as (results & Hpromises & Hnone).
  rewrite Hpromises, Promise_all_fulfilled.
  - rewrite (flat_nothing results Hnone). cbn [length Nat.eqb fst snd].
    split; [reflexivity |].
    rewrite start_all_analyzeChunk_log. fold (extractor_events role chunks).
    unfold announced.
    rewrite !chat_calls_app, chat_calls_extractor_events. simpl.
    now rewrite !app_nil_r.
  - intros i Hi. apply Horder.
    rewrite <- (start_all_length (fun chunk => analyzeChunk h chunk role) chunks
                  (announced log (length chunks))), Hpromises.
    now rewrite length_map.
Qed.

Lemma zero_clause_failure_witness :
  fst (analyzeContract late_host [1; 0] doc_two_chunks (lit "tenant") [])
  = Throws (Error no_clauses_message) /\
  chat_calls
    (snd (analyzeContract late_host [1; 0] doc_two_chunks (lit "tenant") []))
  = [] ++ map (fun chunk => ExtractRequest chunk (lit "tenant"))
           [take 4000 doc_two_chunks; drop 3600 doc_two_chunks].
Proof.
  apply (zero_clause_failure late_host [1; 0] doc_two_chunks (lit "tenant") []
           [take 4000 doc_two_chunks; drop 3600 doc_two_chunks]).
  - exists 2. vm_compute. reflexivity.
  - intros i Hi. simpl in Hi.
    destruct i as [| [| i]]; [now right; left | now left | lia].
  - intros i chunk Hi. exists (JArr []).
    destruct i as [| [| i]]; [| | discriminate];
      injection Hi as <-; split; vm_compute; reflexivity.
Defined.

(** X8. The synthesizer is strict.  A report it returns is a truthy value
    that [JSON.parse] produced from the cleaned reply; a reply that does
    not parse, or parses to [null], [false], [0] or the empty string,
    makes it throw the error "Failed to parse synthesis JSON" after its
    one call to the chat model. *)
Theorem synthesizeReport_strict (h : host) (clauses : list json)
    (role : jsstring) (log : list event) :
  (forall report log',
     synthesizeReport h clauses role log = (Returns report, log') ->
     truthy report = true /\
     exists clauseContext output,
       render_clauses h clauses = inr clauseContext /\
       chatComplete h log (SynthesisRequest clauseContext role) = Returns output /\
       JSON_parse h (clean output) = Some report /\
       log' = log ++ [ChatCall (SynthesisRequest clauseContext role)]) /\
  (forall clauseContext output,
     render_clauses h clauses = inr clauseContext ->
     chatComplete h log (SynthesisRequest clauseContext role) = Returns output ->
     truthy (match JSON_parse h (clean output) with
             | Some v => v
             | None => JNull
             end) = false ->
     synthesizeReport h clauses role log
     = (Throws (Error (lit "Failed to parse synthesis JSON")),
        log ++ [ChatCall (SynthesisRequest clauseContext role)])).
Proof.
  unfold synthesizeReport, bind, settle, call_chat, ret, throw. split.
  - intros report log'.
    destruct (render_clauses h clauses) as [e | ctx]; [discriminate |].
    destruct (chatComplete h log (SynthesisRequest ctx role)) as [output | e |]
      eqn:Hchat; try discriminate.
    rewrite tryParseJson_run.
    destruct (JSON_parse h (clean output)) as [v |] eqn:Hparse;
      [| discriminate].
    destruct (truthy v) eqn:Hv; [| discriminate].
    intros [= <- <-]. split; [assumption |].
    now exists ctx, output.
  - intros ctx output -> -> Hfalsy. rewrite tryParseJson_run.
    now rewrite Hfalsy.
Qed.

Lemma synthesizeReport_strict_witness :
  synthesizeReport unparseable_host [JStr (lit "a clause")] (lit "tenant") []
  = (Throws (Error (lit "Failed to parse synthesis JSON")),
     [] ++ [ChatCall (SynthesisRequest (lit "context") (lit "tenant"))]).
Proof.
  apply (proj2 (synthesizeReport_strict unparseable_host [JStr (lit "a clause")]
                  (lit "tenant") []) (lit "context") (lit "s"));
    reflexivity.
Defined.

Lemma synthesizeReport_tail (h : host) (clauses : list json) (role : jsstring)
    (log : list event) :
  snd (synthesizeReport h clauses role log) = log
  \/ exists clauseContext,
       snd (synthesizeReport h clauses role log)
       = log ++ [ChatCall (SynthesisRequest clauseContext role)].
Proof.
  unfold synthesizeReport, bind, settle, call_chat, ret, throw.
  destruct (render_clauses h clauses) as [e | ctx]; [now left |].
  right. exists ctx.
  destruct (chatComplete h log (SynthesisRequest ctx role)) as [output | e |];
    try reflexivity.
  rewrite tryParseJson_run.
  now destruct (truthy _).
Qed.

(** X9. Order of effects of [analyzeContract], however it ends: the two
    progress messages, then one extractor call per chunk in chunk order,
    then at most the third progress message followed by at most one
    call to the synthesizer.  No extractor call comes after the synthesis
    has been announced, and nothing is ever removed from the log. *)
Theorem analyzeContract_call_order (h : host) (order : list nat)
    (documentText role : jsstring) (log : list event) :
  exists chunks tail,
    chunkText_returns documentText default_chunkSize default_overlap chunks /\
    synthesis_tail role tail /\
    snd (analyzeContract h order documentText role log)
    = announced log (length chunks) ++ extractor_events role chunks ++ tail.
Proof.
  destruct (default_chunks_exist documentText) as [chunks Hchunks].
  exists chunks.
  rewrite (analyzeContract_run _ _ _ _ _ _ Hchunks).
  fold (announced log (length chunks)).
  rewrite start_all_analyzeChunk_log. fold (extractor_events role chunks).
  assert (Hret : chunkText_returns documentText default_chunkSize
                   default_overlap chunks) by now exists (length documentText).
  destruct (Promise_all order _) as [chunkResults | e |]; cbn [snd].
  - destruct (length (flat chunkResults) =? 0)%nat; cbn [snd].
    + exists []. repeat split; [assumption | constructor |].
      now rewrite app_nil_r.
    + destruct (synthesizeReport_tail h (flat chunkResults) role
                  ((announced log (length chunks) ++ extractor_events role chunks)
                   ++ [Progress (lit "Synthesizing final report...")]))
        as [Hlog | [ctx Hlog]];
        destruct (synthesizeReport h (flat chunkResults) role _)
          as [[finalReport | e |] log4]; cbn [snd] in *; subst log4.
      1-3: exists [Progress (lit "Synthesizing final report...")];
        repeat split; [assumption | constructor | now rewrite <- !app_assoc].
      all: exists [Progress (lit "Synthesizing final report...");
                   ChatCall (SynthesisRequest ctx role)];
        repeat split; [assumption | constructor | now rewrite <- !app_assoc].
  - exists []. repeat split; [assumption | constructor |].
    now rewrite app_nil_r.
  - exists []. repeat split; [assumption | constructor |].
    now rewrite app_nil_r.
Qed.

(** X10. One failed extraction fails the whole analysis: if the call to
    the chat model for the chunk at some position throws, at the moment
    that call is made, [analyzeContract] returns no response (it throws,
    or waits for ever), whatever the other chunks yield. *)
Theorem extraction_failure_aborts (h : host) (order : list nat)
    (documentText role : jsstring) (log : list event) (chunks : list jsstring)
    (i : nat) (chunk : jsstring) (e : error) :
  chunkText_returns documentText default_chunkSize default_overlap chunks ->
  chunks !! i = Some chunk ->
  chatComplete h (issue_log log role chunks i) (ExtractRequest chunk role)
  = Throws e ->
  (exists e', fst (analyzeContract h order documentText role log) = Throws e')
  \/ fst (analyzeContract h order documentText role log) = Never.
Proof.
  intros Hret Hi Hthrows.
  destruct (analyzeContract h order documentText role log)
    as [[response | e' |] log'] eqn:Hrun; [exfalso | left; now exists e' | now right].
  apply chunkText_returns_run in Hret.
  destruct (analyzeContract_clauses _ _ _ _ _ _ _ _ Hret Hrun)
    as (results & Hpromises & _).
  fold (announced log (length chunks)) in Hpromises.
  pose proof (start_all_lookup h role chunks (announced log (length chunks))
                i chunk Hi) as Hpromise.
  fold (issue_log log role chunks i) in Hpromise.
  rewrite analyzeChunk_run, Hthrows in Hpromise. cbn [fst] in Hpromise.
  rewrite Hpromises, list_lookup_fmap in Hpromise.
  destruct (results !! i); discriminate.
Qed.

Lemma extraction_failure_aborts_witness :
  (exists e',
     fst (analyzeContract first_call_fails_host [1; 0] doc_two_chunks
            (lit "tenant") []) = Throws e')
  \/ fst (analyzeContract first_call_fails_host [1; 0] doc_two_chunks
            (lit "tenant") []) = Never.
Proof.
  apply (extraction_failure_aborts first_call_fails_host [1; 0] doc_two_chunks
           (lit "tenant") [] [take 4000 doc_two_chunks; drop 3600 doc_two_chunks]
           0 (take 4000 doc_two_chunks) (Thrown 1)).
  - exists 2. vm_compute. reflexivity.
  - reflexivity.
  - reflexivity.
Defined.

End OrchestratorExtras.

(** ** Further properties of [cosineSimilarity] *)

Module CosineExtras.
Import Service LoopFacts CosineFacts.

Lemma SF64mul_comm (x y : spec_float) : SF64mul x y = SF64mul y x.
Proof.
  unfold SF64mul, SFmul.
  destruct x as [sx | sx | | sx mx ex], y as [sy | sy | | sy my ey];
    try reflexivity; try (now rewrite xorb_comm).
  now rewrite xorb_comm, Pos.mul_comm, Z.add_comm.
Qed.

(** Multiplication of binary64 numbers is commutative. *)
Lemma float_mul_comm (x y : float) : (x * y)%float = (y * x)%float.
Proof. apply Prim2SF_inj. rewrite !mul_spec. apply SF64mul_comm. Qed.

Lemma cosine_fold_swap (a b : list float) :
  length a = length b ->
  forall dot na nb dot' na' nb',
    fold_left (fun s i => cosine_step s (nth i a nan) (nth i b nan))
              (seq 0 (length a)) (dot, na, nb) = (dot', na', nb') ->
    fold_left (fun s i => cosine_step s (nth i b nan) (nth i a nan))
              (seq 0 (length b)) (dot, nb, na) = (dot', nb', na').
Proof.
  revert b. induction a as [| x a IH]; intros [| y b] Hlen dot na nb dot' na' nb';
    try discriminate.
  - cbn. now intros [= -> -> ->].
  - cbn [length]. rewrite !fold_left_nth_cons. cbn [cosine_step].
    intros Hfold. rewrite (float_mul_comm y x).
    apply IH; [now injection Hlen | assumption].
Qed.

(** X11. [cosineSimilarity] is symmetric on vectors of the same length:
    exchanging the two arguments gives the same binary64 number, bit for
    bit. *)
Theorem cosineSimilarity_symmetric (a b : list float) :
  length a = length b -> cosineSimilarity a b = cosineSimilarity b a.
Proof.
  intros Hlen. unfold cosineSimilarity, cosine_sums.
  destruct (fold_left (fun s i => cosine_step s (nth i a nan) (nth i b nan))
              (seq 0 (length a)) (0, 0, 0)%float) as [[dot na] nb] eqn:Hab.
  rewrite (cosine_fold_swap a b Hlen _ _ _ _ _ _ Hab).
  now rewrite (float_mul_comm (sqrt nb) (sqrt na)).
Qed.

Lemma cosineSimilarity_symmetric_witness :
  cosineSimilarity [1; 2; 3]%float [-4; 0.5; 6]%float
  = cosineSimilarity [-4; 0.5; 6]%float [1; 2; 3]%float.
Proof.
  apply (cosineSimilarity_symmetric [1; 2; 3]%float [-4; 0.5; 6]%float).
  reflexivity.
Defined.

Lemma nan_add_l (x y : float) :
  Prim2SF x = S754_nan -> Prim2SF (x + y) = S754_nan.
Proof. intros Hx. rewrite add_spec, Hx. reflexivity. Qed.

Lemma nan_add_r (x y : float) :
  Prim2SF y = S754_nan -> Prim2SF (x + y) = S754_nan.
Proof.
  intros Hy. rewrite add_spec, Hy. now destruct (Prim2SF x) as [[] | [] | | ].
Qed.

Lemma nan_mul_r (x y : float) :
  Prim2SF y = S754_nan -> Prim2SF (x * y) = S754_nan.
Proof.
  intros Hy. rewrite mul_spec, Hy. now destruct (Prim2SF x).
Qed.

Lemma nan_is_nan (x : float) : Prim2SF x = S754_nan -> is_nan x = true.
Proof. intros Hx. unfold is_nan. now rewrite FloatAxioms.eqb_spec, Hx. Qed.

Lemma nth_nil_default {A} (i : nat) (d : A) : nth i [] d = d.
Proof. now destruct i. Qed.

(** Once the dot product and the second sum of squares are [NaN], they
    stay [NaN]. *)
Lemma cosine_fold_nan_stays (a b : list float) (indices : list nat) :
  forall dot na nb,
    Prim2SF dot = S754_nan -> Prim2SF nb = S754_nan ->
    exists dot' na' nb',
      fold_left (fun s i => cosine_step s (nth i a nan) (nth i b nan))
                indices (dot, na, nb) = (dot', na', nb')
      /\ Prim2SF dot' = S754_nan /\ Prim2SF nb' = S754_nan.
Proof.
  induction indices as [| i indices IH]; intros dot na nb Hdot Hnb.
  - now exists dot, na, nb.
  - cbn [fold_left cosine_step]. apply IH; now apply nan_add_l.
Qed.

Lemma cosine_fold_short (a b : list float) :
  length b < length a ->
  forall dot na nb,
    exists dot' na' nb',
      fold_left (fun s i => cosine_step s (nth i a nan) (nth i b nan))
                (seq 0 (length a)) (dot, na, nb) = (dot', na', nb')
      /\ Prim2SF dot' = S754_nan /\ Prim2SF nb' = S754_nan.
Proof.
  revert a. induction b as [| y b IH]; intros [| x a] Hlen dot na nb;
    try (simpl in Hlen; lia).
  - cbn [length seq fold_left]. unfold cosine_step at 2.
    apply (cosine_fold_nan_stays (x :: a) [] (seq 1 (length a)));
      apply nan_add_r; now apply nan_mul_r.
  - cbn [length]. rewrite fold_left_nth_cons.
    apply IH. simpl in Hlen. lia.
Qed.

(** X12. When the second vector is shorter than the first, the loop
    reads past its end and [cosineSimilarity] is [NaN], whatever the
    entries are. *)
Theorem cosineSimilarity_short_second_vector (a b : list float) :
  length b < length a -> is_nan (cosineSimilarity a b) = true.
Proof.
  intros Hlen. unfold cosineSimilarity, cosine_sums.
  destruct (cosine_fold_short a b Hlen 0 0 0)%float
    as (dot & na & nb & -> & Hdot & Hnb).
  assert (Hprod : Prim2SF (sqrt na * sqrt nb) = S754_nan).
  { apply nan_mul_r. now rewrite sqrt_spec, Hnb. }
  rewrite (nan_is_nan _ Hprod), orb_true_r.
  apply nan_is_nan. rewrite div_spec, Hdot. reflexivity.
Qed.

Lemma cosineSimilarity_short_second_vector_witness :
  is_nan (cosineSimilarity [1; 2]%float [1]%float) = true.
Proof.
  apply (cosineSimilarity_short_second_vector [1; 2]%float [1]%float).
  simpl. lia.
Defined.

End CosineExtras.

(** ** Properties of the account and history service *)

Module AuthFacts.
Import Text Effects Auth.

Section WithPlatform.
Context {R : Type} (pl : platform).

Lemma same_lower_refl (a : jsstring) : same_lower pl a a = true.
Proof. unfold same_lower. now apply bool_decide_eq_true. Qed.

Lemma same_lower_true (a b : jsstring) :
  same_lower pl a b = true <-> toLowerCase pl a = toLowerCase pl b.
Proof. unfold same_lower. apply bool_decide_eq_true. Qed.

Lemma same_text_true (a b : jsstring) : same_text a b = true <-> a = b.
Proof. unfold same_text. apply bool_decide_eq_true. Qed.

Lemma find_app_None {A} (p : A -> bool) (l : list A) (x : A) :
  find p l = None -> find p (l ++ [x]) = if p x then Some x else None.
Proof.
  induction l as [| y l IH]; simpl; [reflexivity |].
  destruct (p y); [discriminate | exact IH].
Qed.

Lemma find_elem {A} (p : A -> bool) (l : list A) (x : A) :
  x ∈ l -> p x = true -> exists y, find p l = Some y.
Proof.
  induction 1 as [x l | x y l _ IH]; simpl; intros Hp.
  - rewrite Hp. now exists x.
  - destruct (p y); [now exists y | now apply IH].
Qed.

Lemma find_None_elem {A} (p : A -> bool) (l : list A) (x : A) :
  find p l = None -> x ∈ l -> p x = false.
Proof.
  intros Hfind Hx. apply list_elem_of_In in Hx.
  exact (find_none p l Hfind x Hx).
Qed.

(** What a successful [signup] did. *)
Lemma signup_returns (now : N) (username0 email0 password : jsstring)
    (b b' : browser R) (user : User) :
  signup pl now username0 email0 password b = (Returns user, b') ->
  find (fun u => same_lower pl (username (account u)) username0) (getUsers b) = None /\
  find (fun u => same_lower pl (email (account u)) email0) (getUsers b) = None /\
  user = {| id := lit "user_" ++ decimalN now; username := username0;
            email := email0; picture := None |} /\
  b' = setSession user
         (saveUsers (getUsers b
                     ++ [{| account := user;
                            passwordHash := lit "hashed_" ++ password |}]) b).
Proof.
  unfold signup.
  destruct (find (fun u => same_lower pl (username (account u)) username0) _);
    [discriminate |].
  destruct (find (fun u => same_lower pl (email (account u)) email0) _);
    [discriminate |].
  intros [= <- <-]. repeat split.
Qed.

(** X13. Sign-up, then login: after a successful [signup], [login] with
    the same email and password returns the very user [signup] returned,
    who is also the current user, and leaves the browser as it is.  With
    any other password [login] throws "Invalid email or password." and
    changes nothing. *)
Theorem signup_then_login (now : N) (username0 email0 password : jsstring)
    (b b' : browser R) (user : User) :
  signup pl now username0 email0 password b = (Returns user, b') ->
  getCurrentUser b' = Some user /\
  login pl email0 password b' = (Returns user, b') /\
  forall other,
    other <> password ->
    login pl email0 other b' = (Throws (Error invalid_login_message), b').
Proof.
  intros (_ & Hemail & -> & ->)%signup_returns.
  split; [reflexivity |].
  unfold login. cbn [getUsers setSession saveUsers users_item].
  rewrite (find_app_None _ _ _ Hemail). cbn [account email].
  rewrite same_lower_refl. cbn [passwordHash]. split.
  - assert (Hsame : same_text (lit "hashed_" ++ password) (lit "hashed_" ++ password)
                    = true) by now apply same_text_true.
    now rewrite Hsame.
  - intros other Hother.
    destruct (same_text (lit "hashed_" ++ password) (lit "hashed_" ++ other))
      eqn:Hsame; [| reflexivity].
    apply same_text_true, app_inv_head in Hsame. congruence.
Qed.

(** X14. [signup] refuses a user name or an email that an account
    already has, compared without regard to letter case, and then changes
    nothing in the browser: a taken user name gives "This username is
    already taken."; a taken email gives that error or "An account with
    this email already exists.". *)
Theorem signup_rejects_duplicates (now : N)
    (username0 email0 password : jsstring) (b : browser R) (existing : StoredUser) :
  existing ∈ getUsers b ->
  (toLowerCase pl (username (account existing)) = toLowerCase pl username0 ->
   signup pl now username0 email0 password b
   = (Throws (Error username_taken_message), b)) /\
  (toLowerCase pl (email (account existing)) = toLowerCase pl email0 ->
   signup pl now username0 email0 password b
   = (Throws (Error username_taken_message), b)
   \/ signup pl now username0 email0 password b
      = (Throws (Error email_exists_message), b)).
Proof.
  intros Hin. unfold signup. split.
  - intros Hname.
    destruct (find_elem (fun u => same_lower pl (username (account u)) username0)
                _ _ Hin) as [y ->]; [now apply same_lower_true | reflexivity].
  - intros Hmail.
    destruct (find (fun u => same_lower pl (username (account u)) username0) _);
      [now left | right].
    destruct (find_elem (fun u => same_lower pl (email (account u)) email0)
                _ _ Hin) as [y ->]; [now apply same_lower_true | reflexivity].
Qed.

(** X15. Accounts stay distinct: if no two accounts agree on the user
    name or on the email once letter case is ignored, this is still so
    after a successful [signup]. *)
Theorem signup_keeps_accounts_distinct (now : N)
    (username0 email0 password : jsstring) (b b' : browser R) (user : User) :
  NoDup (map (fun u => toLowerCase pl (username (account u))) (getUsers b)) ->
  NoDup (map (fun u => toLowerCase pl (email (account u))) (getUsers b)) ->
  signup pl now username0 email0 password b = (Returns user, b') ->
  NoDup (map (fun u => toLowerCase pl (username (account u))) (getUsers b')) /\
  NoDup (map (fun u => toLowerCase pl (email (account u))) (getUsers b')).
Proof.
  intros Hnames Hmails (Hname & Hmail & -> & ->)%signup_returns.
  cbn [getUsers setSession saveUsers users_item].
  rewrite !map_app. cbn [map account username email].
  split; apply NoDup_app; (split; [assumption |]);
    (split; [| apply NoDup_singleton]);
    intros key Hkey Hnew; apply list_elem_of_singleton in Hnew;
    subst key; apply list_elem_of_In, in_map_iff in Hkey;
    destruct Hkey as (u & Hu & Hin); apply list_elem_of_In in Hin.
  - pose proof (find_None_elem _ _ _ Hname Hin) as Hp. cbn beta in Hp.
    apply same_lower_true in Hu. congruence.
  - pose proof (find_None_elem _ _ _ Hmail Hin) as Hp. cbn beta in Hp.
    apply same_lower_true in Hu. congruence.
Qed.

(** X16. The session: [logout] leaves no current user and keeps the
    accounts; a [login] that succeeds makes its user the current user,
    and logging out and in again with the same email and password gives
    the same user and the same browser. *)
Theorem session_lifecycle (email0 password : jsstring) (b b' : browser R)
    (user : User) :
  getCurrentUser (logout b) = None /\
  getUsers (logout b) = getUsers b /\
  (login pl email0 password b = (Returns user, b') ->
   getCurrentUser b' = Some user /\
   login pl email0 password (logout b') = (Returns user, b')).
Proof.
  split; [reflexivity |]. split; [reflexivity |].
  unfold login.
  destruct (find _ (getUsers b)) as [found |] eqn:Hfind; [| discriminate].
  destruct (same_text _ _) eqn:Hpw; [| discriminate].
  intros [= <- <-]. split; [reflexivity |].
  change (getUsers (logout (setSession _ b))) with (getUsers b).
  now rewrite Hfind, Hpw.
Qed.

Lemma insert_by_date_perm (x : StoredAnalysis R) (l : list (StoredAnalysis R)) :
  insert_by_date pl x l ≡ₚ x :: l.
Proof.
  induction l as [| y l IH]; simpl; [reflexivity |].
  destruct (0 <? _)%Z; [| reflexivity].
  rewrite IH. apply perm_swap.
Qed.

Lemma sort_by_date_perm (l : list (StoredAnalysis R)) : sort_by_date pl l ≡ₚ l.
Proof.
  induction l as [| x l IH]; simpl; [reflexivity |].
  rewrite insert_by_date_perm. now rewrite IH.
Qed.

Lemma insert_by_date_sorted (x : StoredAnalysis R) (l : list (StoredAnalysis R)) :
  StronglySorted
    (fun a1 a2 => (getTime pl (analysisDate a2) <= getTime pl (analysisDate a1))%Z) l ->
  StronglySorted
    (fun a1 a2 => (getTime pl (analysisDate a2) <= getTime pl (analysisDate a1))%Z)
    (insert_by_date pl x l).
Proof.
  induction 1 as [| y l Hl IH Hy]; simpl; [repeat constructor |].
  destruct (Z.ltb_spec 0 (getTime pl (analysisDate y) - getTime pl (analysisDate x)))
    as [Hlt | Hge].
  - constructor; [exact IH |].
    rewrite insert_by_date_perm. constructor; [lia | exact Hy].
  - constructor; [now constructor |].
    constructor; [lia |].
    eapply Forall_impl; [exact Hy |]. cbn beta. intros a Ha. lia.
Qed.

Lemma sort_by_date_sorted (l : list (StoredAnalysis R)) :
  StronglySorted
    (fun a1 a2 => (getTime pl (analysisDate a2) <= getTime pl (analysisDate a1))%Z)
    (sort_by_date pl l).
Proof.
  induction l as [| x l IH]; simpl; [constructor |].
  now apply insert_by_date_sorted.
Qed.

Lemma sorted_newest_first (l : list (StoredAnalysis R)) :
  StronglySorted
    (fun a1 a2 => (getTime pl (analysisDate a2) <= getTime pl (analysisDate a1))%Z) l ->
  newest_first pl l.
Proof.
  induction 1 as [| y l Hl IH Hy]; intros i j a1 a2 Hij Hi Hj;
    [discriminate |].
  destruct i as [| i], j as [| j]; simpl in Hi, Hj; try lia.
  - injection Hi as <-. injection Hj as <-. lia.
  - injection Hi as <-. apply list_elem_of_lookup_2 in Hj.
    rewrite Forall_forall in Hy. now apply Hy.
  - apply (IH i j); [lia | assumption | assumption].
Qed.

(** X17. [getUserAnalyses] returns the stored analyses of the given user
    and nothing else, each as often as it is stored, ordered from the
    newest to the oldest date. *)
Theorem getUserAnalyses_history (userId0 : jsstring) (b : browser R) :
  getUserAnalyses pl userId0 b
  ≡ₚ filter (fun a => userId a = userId0) (getAnalyses b) /\
  Forall (fun a => userId a = userId0) (getUserAnalyses pl userId0 b) /\
  newest_first pl (getUserAnalyses pl userId0 b).
Proof.
  unfold getUserAnalyses.
  assert (Hfilter : filter (fun a : StoredAnalysis R => same_text (userId a) userId0 = true)
                           (getAnalyses b)
                    = filter (fun a => userId a = userId0) (getAnalyses b)).
  { apply list_filter_iff. intros a. apply same_text_true. }
  rewrite Hfilter. split; [apply sort_by_date_perm |]. split.
  - rewrite sort_by_date_perm. apply Forall_forall. intros a Ha.
    now apply list_elem_of_filter in Ha.
  - apply sorted_newest_first, sort_by_date_sorted.
Qed.

(** X18. A saved analysis shows up in the history of its user, which
    grows by exactly one entry; the histories of all other users, the
    accounts and the session are untouched. *)
Theorem saveAnalysis_listed (now today : N) (userId0 : jsstring) (result : R)
    (fileName0 documentText0 : jsstring) (b : browser R) :
  let saved :=
    fst (saveAnalysis pl now today userId0 result fileName0 documentText0 b) in
  let b' :=
    snd (saveAnalysis pl now today userId0 result fileName0 documentText0 b) in
  saved ∈ getUserAnalyses pl userId0 b' /\
  length (getUserAnalyses pl userId0 b')
  = S (length (getUserAnalyses pl userId0 b)) /\
  (forall other, other <> userId0 ->
     getUserAnalyses pl other b' = getUserAnalyses pl other b) /\
  getUsers b' = getUsers b /\
  getCurrentUser b' = getCurrentUser b.
Proof.
  cbv zeta. unfold saveAnalysis. cbn [fst snd].
  set (saved := {| analysisId := _ |}).
  unfold getUserAnalyses. cbn [getAnalyses saveAllAnalyses analyses_item].
  fold (getAnalyses b).
  assert (Hown : same_text (userId saved) userId0 = true)
    by now apply same_text_true.
  repeat split.
  - rewrite sort_by_date_perm, filter_app, filter_cons_True by exact Hown.
    apply elem_of_app. right. now left.
  - rewrite !sort_by_date_perm, filter_app, filter_cons_True by exact Hown.
    rewrite length_app. simpl. lia.
  - intros other Hother. f_equal.
    rewrite filter_app, filter_cons_False, filter_nil, app_nil_r; [reflexivity |].
    intros Hsame. apply same_text_true in Hsame. subst saved.
    cbn [userId] in Hsame. congruence.
Qed.

End WithPlatform.

Lemma signup_then_login_witness :
  getCurrentUser AuthExamples.ann_signed_up = Some AuthExamples.ann /\
  login sample_platform (lit "ann@example.org") (lit "secret")
    AuthExamples.ann_signed_up
  = (Returns AuthExamples.ann, AuthExamples.ann_signed_up) /\
  forall other,
    other <> lit "secret" ->
    login sample_platform (lit "ann@example.org") other AuthExamples.ann_signed_up
    = (Throws (Error invalid_login_message), AuthExamples.ann_signed_up).
Proof.
  apply (signup_then_login sample_platform 5 (lit "Ann") (lit "ann@example.org")
           (lit "secret") empty_browser).
  reflexivity.
Defined.

Lemma signup_rejects_duplicates_witness :
  signup sample_platform 6 (lit "ANN") (lit "other@example.org") (lit "pw")
    AuthExamples.ann_signed_up
  = (Throws (Error username_taken_message), AuthExamples.ann_signed_up).
Proof.
  apply (proj1 (signup_rejects_duplicates sample_platform 6 (lit "ANN")
                  (lit "other@example.org") (lit "pw") AuthExamples.ann_signed_up
                  {| account := AuthExamples.ann;
                     passwordHash := lit "hashed_secret" |}
                  ltac:(now left))).
  reflexivity.
Defined.

Lemma signup_keeps_accounts_distinct_witness :
  NoDup (map (fun u => toLowerCase sample_platform (username (account u)))
             (getUsers AuthExamples.ann_and_bob)) /\
  NoDup (map (fun u => toLowerCase sample_platform (email (account u)))
             (getUsers AuthExamples.ann_and_bob)).
Proof.
  apply (signup_keeps_accounts_distinct sample_platform 6 (lit "Bob")
           (lit "bob@example.org") (lit "pw") AuthExamples.ann_signed_up
           AuthExamples.ann_and_bob AuthExamples.bob).
  - vm_compute. apply NoDup_singleton.
  - vm_compute. apply NoDup_singleton.
  - reflexivity.
Defined.

Lemma session_lifecycle_witness :
  getCurrentUser AuthExamples.ann_signed_up = Some AuthExamples.ann /\
  login sample_platform (lit "ann@example.org") (lit "secret")
    (logout AuthExamples.ann_signed_up)
  = (Returns AuthExamples.ann, AuthExamples.ann_signed_up).
Proof.
  apply (proj2 (proj2 (session_lifecycle sample_platform (lit "ann@example.org")
                         (lit "secret") (logout AuthExamples.ann_signed_up)
                         AuthExamples.ann_signed_up AuthExamples.ann))).
  reflexivity.
Defined.

End AuthFacts.

(** ** Properties of the highlighted document *)

Module DocumentViewFacts.
Import Types DocumentView.

Lemma starts_with_take (text pattern : jsstring) :
  starts_with text pattern = true ->
  take (length pattern) text = pattern /\ length pattern <= length text.
Proof.
  revert text. induction pattern as [| p pattern IH]; intros text H.
  - split; [reflexivity | cbn; lia].
  - destruct text as [| c text]; [discriminate |].
    cbn in H. apply andb_true_iff in H as [Hpc H].
    apply N.eqb_eq in Hpc. subst c.
    destruct (IH _ H) as [Ht Hl]. cbn. split; [now rewrite Ht | lia].
Qed.

Lemma take_starts_with (text pattern : jsstring) :
  take (length pattern) text = pattern -> starts_with text pattern = true.
Proof.
  revert text. induction pattern as [| p pattern IH]; intros text H.
  - now destruct text.
  - destruct text as [| c text]; [discriminate |].
    cbn in H. injection H as -> H. cbn. rewrite N.eqb_refl. now apply IH.
Qed.

Lemma indexOf_sound (text pattern : jsstring) (i : nat) :
  indexOf text pattern = Some i ->
  take (length pattern) (drop i text) = pattern
  /\ i + length pattern <= length text.
Proof.
  revert i. induction text as [| c text IH]; intros i H.
  - cbn [indexOf] in H.
    destruct (starts_with [] pattern) eqn:Hs; [| discriminate].
    injection H as <-. now apply starts_with_take.
  - cbn [indexOf] in H.
    destruct (starts_with (c :: text) pattern) eqn:Hs.
    + injection H as <-. now apply starts_with_take.
    + destruct (indexOf text pattern) as [j |]; [| discriminate].
      injection H as <-. destruct (IH j eq_refl) as [Ht Hl].
      cbn. split; [exact Ht | lia].
Qed.

Lemma indexOf_first (text pattern : jsstring) (i j : nat) :
  indexOf text pattern = Some i ->
  take (length pattern) (drop j text) = pattern ->
  j + length pattern <= length text ->
  i <= j.
Proof.
  revert i j. induction text as [| c text IH]; intros i j H Hj Hlen.
  - cbn [indexOf] in H. destruct (starts_with [] pattern); [| discriminate].
    injection H as <-. lia.
  - cbn [indexOf] in H.
    destruct (starts_with (c :: text) pattern) eqn:Hs.
    + injection H as <-. lia.
    + destruct j as [| j].
      * cbn in Hj. apply take_starts_with in Hj. congruence.
      * destruct (indexOf text pattern) as [k |]; [| discriminate].
        injection H as <-. cbn in Hj, Hlen.
        specialize (IH k j eq_refl Hj). lia.
Qed.

Lemma indexOf_complete (text pattern : jsstring) (j : nat) :
  take (length pattern) (drop j text) = pattern ->
  j + length pattern <= length text ->
  indexOf text pattern <> None.
Proof.
  revert j. induction text as [| c text IH]; intros j Hj Hlen.
  - cbn in Hlen. destruct pattern; [cbn; discriminate | cbn in Hlen; lia].
  - cbn [indexOf].
    destruct (starts_with (c :: text) pattern) eqn:Hs; [discriminate |].
    destruct j as [| j].
    + cbn in Hj. apply take_starts_with in Hj. congruence.
    + cbn in Hj, Hlen. specialize (IH j Hj ltac:(lia)).
      destruct (indexOf text pattern); [discriminate | contradiction].
Qed.

Lemma elem_of_locate (documentText : jsstring) (clauses : list ClauseAnalysis)
    (l : located) :
  l ∈ locate documentText clauses <->
  clauses !! originalIndex l = Some (clause l)
  /\ indexOf documentText (clauseText (clause l)) = Some (start l).
Proof.
  unfold locate. rewrite list_elem_of_omap. split.
  - intros (o & Hin & Ho). subst o.
    apply elem_of_lookup_imap in Hin as (i & c & Hc & Hi).
    destruct (indexOf documentText (clauseText c)) as [k |] eqn:Hk;
      [| discriminate].
    injection Hc as ->. cbn. now rewrite Hk.
  - intros [Hi Hk]. exists (Some l). split; [| reflexivity].
    apply elem_of_lookup_imap. exists (originalIndex l), (clause l).
    split; [| exact Hi]. rewrite Hk. now destruct l.
Qed.

Lemma insert_by_start_perm (x : located) (l : list located) :
  insert_by_start x l ≡ₚ x :: l.
Proof.
  induction l as [| y l IH]; [reflexivity |].
  cbn. destruct (0 <? _)%Z; [| reflexivity].
  rewrite IH. apply Permutation_swap.
Qed.

Lemma sort_by_start_perm (l : list located) : sort_by_start l ≡ₚ l.
Proof.
  induction l as [| x l IH]; [reflexivity |].
  cbn. rewrite insert_by_start_perm. now rewrite IH.
Qed.

Lemma displayed_app (ps qs : list DocumentPart) :
  displayed (ps ++ qs) = displayed ps ++ displayed qs.
Proof. unfold displayed. now rewrite map_app, concat_app. Qed.

Lemma take_step (s : jsstring) (a n : nat) :
  take a s ++ take n (drop a s) = take (a + n) s.
Proof. apply take_take_drop. Qed.

(** The loop invariant of the [forEach]: what has been pushed so far is
    the document up to [lastIndex]. *)
Lemma push_clause_invariant (documentText : jsstring) (l : list located)
    (result : list DocumentPart) (lastIndex : nat) :
  Forall (sits_in documentText) l ->
  separated lastIndex l ->
  lastIndex <= length documentText ->
  displayed result = take lastIndex documentText ->
  let '(result', lastIndex') :=
    fold_left (push_clause documentText) l (result, lastIndex) in
  displayed result' = take lastIndex' documentText
  /\ lastIndex' <= length documentText.
Proof.
  revert result lastIndex.
  induction l as [| c l IH]; intros result lastIndex Hsit Hsep Hlen Hres.
  - cbn. now split.
  - apply Forall_cons in Hsit as [[Hc Hend] Hsit].
    destruct Hsep as [Hle Hsep]. cbn [fold_left push_clause].
    apply IH; [exact Hsit | exact Hsep | exact Hend |].
    rewrite displayed_app. unfold displayed at 2. cbn [map concat part_text].
    rewrite app_nil_r, <- take_step, Hc. f_equal.
    destruct (lastIndex <? start c)%nat eqn:Hlt.
    + apply Nat.ltb_lt in Hlt. rewrite displayed_app, Hres.
      unfold displayed. cbn [map concat part_text]. rewrite app_nil_r.
      rewrite ChunkerFacts.substring_take_drop by lia.
      rewrite Nat2Z.id.
      replace (Z.to_nat (Z.of_nat (start c) - Z.of_nat lastIndex))
        with (start c - lastIndex) by lia.
      rewrite take_step. f_equal. lia.
    + apply Nat.ltb_ge in Hlt. rewrite Hres. f_equal. lia.
Qed.

(** X19. When no located clause begins before the end of the one before
    it, the parts of the view, read from top to bottom, are the document
    text: nothing is lost, repeated or reordered by the highlighting. *)
Theorem parts_reassemble (documentText : jsstring)
    (clauses : list ClauseAnalysis) :
  separated 0 (sort_by_start (locate documentText clauses)) ->
  displayed (parts documentText clauses) = documentText.
Proof.
  intros Hsep. unfold parts.
  destruct clauses as [| c0 clauses0] eqn:Hclauses.
  { unfold displayed. cbn. apply app_nil_r. }
  rewrite <- Hclauses in *. clear Hclauses.
  assert (Hsit : Forall (sits_in documentText)
                   (sort_by_start (locate documentText clauses))).
  { apply Forall_forall. intros l Hl.
    rewrite sort_by_start_perm in Hl.
    apply elem_of_locate in Hl as [_ Hk].
    apply indexOf_sound in Hk. exact Hk. }
  pose proof (push_clause_invariant documentText _ [] 0 Hsit Hsep
                ltac:(lia) eq_refl) as Hinv.
  destruct (fold_left _ _ _) as [result lastIndex].
  destruct Hinv as [Hres Hlen].
  destruct (lastIndex <? length documentText)%nat eqn:Hlt.
  - rewrite displayed_app, Hres. unfold displayed.
    cbn [map concat part_text]. rewrite app_nil_r.
    rewrite ChunkerFacts.substring_take_drop by lia.
    rewrite Nat2Z.id.
    rewrite (take_ge (drop _ _)) by (rewrite length_drop; lia).
    apply take_drop.
  - apply Nat.ltb_ge in Hlt. rewrite Hres. apply take_ge. lia.
Qed.

Lemma parts_reassemble_witness :
  displayed (parts (lit "pay rent; no pets")
               [sample_clause "no pets"; sample_clause "pay rent"])
  = lit "pay rent; no pets".
Proof.
  apply (parts_reassemble (lit "pay rent; no pets")
           [sample_clause "no pets"; sample_clause "pay rent"]).
  vm_compute. repeat split; lia.
Defined.

Lemma highlights_of_fold (documentText : jsstring) (l : list located)
    (result : list DocumentPart) (lastIndex : nat) (h : located) :
  Highlight h ∈ (fold_left (push_clause documentText) l (result, lastIndex)).1
  <-> Highlight h ∈ result \/ h ∈ l.
Proof.
  revert result lastIndex. induction l as [| c l IH]; intros result lastIndex.
  - cbn. rewrite elem_of_nil. tauto.
  - cbn [fold_left push_clause]. rewrite IH.
    rewrite elem_of_app, list_elem_of_singleton, elem_of_cons.
    destruct (lastIndex <? start c)%nat.
    + rewrite elem_of_app, list_elem_of_singleton.
      split.
      * intros [[[H | H] | H] | H]; try tauto; [discriminate | injection H as ->; tauto].
      * intros [H | [-> | H]]; tauto.
    + split.
      * intros [[H | H] | H]; try tauto. injection H as ->. tauto.
      * intros [H | [-> | H]]; tauto.
Qed.

(** X20. With a non-empty clause list, a clause is highlighted exactly
    when its text occurs in the document; the highlight then carries the
    clause's position in the list and marks the first occurrence of its
    text. *)
Theorem highlights_are_found_clauses (documentText : jsstring)
    (clauses : list ClauseAnalysis) (h : located) :
  clauses <> [] ->
  Highlight h ∈ parts documentText clauses
  <-> clauses !! originalIndex h = Some (clause h)
      /\ indexOf documentText (clauseText (clause h)) = Some (start h).
Proof.
  intros Hne. rewrite <- elem_of_locate. unfold parts.
  destruct clauses as [| c0 clauses0] eqn:Hclauses; [contradiction |].
  rewrite <- Hclauses. clear Hclauses Hne.
  pose proof (highlights_of_fold documentText
                (sort_by_start (locate documentText clauses)) [] 0 h) as H.
  destruct (fold_left _ _ _) as [result lastIndex]. cbn [fst] in H.
  rewrite elem_of_nil, sort_by_start_perm in H.
  destruct (lastIndex <? length documentText)%nat.
  - rewrite elem_of_app, list_elem_of_singleton, H.
    split; [intros [[[] | ?] | ?]; [assumption | discriminate] | tauto].
  - rewrite H. tauto.
Qed.

Lemma highlights_are_found_clauses_witness :
  [sample_clause "no pets"; sample_clause "pay rent"] <> []
  /\ (Highlight {| clause := sample_clause "pay rent"; originalIndex := 1;
                  start := 0 |}
        ∈ parts (lit "pay rent; no pets")
            [sample_clause "no pets"; sample_clause "pay rent"]
      <-> [sample_clause "no pets"; sample_clause "pay rent"] !! 1
          = Some (sample_clause "pay rent")
          /\ indexOf (lit "pay rent; no pets")
               (clauseText (sample_clause "pay rent")) = Some 0).
Proof.
  split; [discriminate |].
  apply (highlights_are_found_clauses (lit "pay rent; no pets")
           [sample_clause "no pets"; sample_clause "pay rent"]
           {| clause := sample_clause "pay rent"; originalIndex := 1;
              start := 0 |}).
  discriminate.
Defined.

(** The model of the built-in [indexOf] returns the first occurrence:
    the pattern is at the returned position, at no earlier one, and the
    search fails only if the pattern occurs nowhere. *)
Lemma indexOf_first_occurrence (text pattern : jsstring) :
  match indexOf text pattern with
  | Some i =>
      substring text (Z.of_nat i) (Z.of_nat (i + length pattern)) = pattern
      /\ i + length pattern <= length text
      /\ forall j, j < i ->
           substring text (Z.of_nat j) (Z.of_nat (j + length pattern))
           <> pattern
  | None =>
      forall j, j + length pattern <= length text ->
        substring text (Z.of_nat j) (Z.of_nat (j + length pattern))
        <> pattern
  end.
Proof.
  assert (Hsub : forall j,
    substring text (Z.of_nat j) (Z.of_nat (j + length pattern))
    = take (length pattern) (drop j text)).
  { intros j. rewrite ChunkerFacts.substring_take_drop by lia.
    rewrite Nat2Z.id. f_equal. lia. }
  destruct (indexOf text pattern) as [i |] eqn:Hi.
  - destruct (indexOf_sound _ _ _ Hi) as [Ht Hl].
    split; [now rewrite Hsub | split; [exact Hl |]].
    intros j Hj Heq. rewrite Hsub in Heq.
    pose proof (indexOf_first _ _ _ j Hi Heq). lia.
  - intros j Hj Heq. rewrite Hsub in Heq.
    now apply (indexOf_complete _ _ _ Heq Hj).
Qed.

End DocumentViewFacts.

(** ** Properties of the clause resolutions *)

Module NegotiateFacts.
Import Types Negotiate.

Lemma find_map_other (index : nat) (f : ClauseResolution -> ClauseResolution)
    (j : nat) (prev : list ClauseResolution) :
  (forall r, clauseIndex (f r) = clauseIndex r) ->
  j <> index ->
  find (fun r => (clauseIndex r =? j)%nat)
    (map (fun r => if (clauseIndex r =? index)%nat then f r else r) prev)
  = find (fun r => (clauseIndex r =? j)%nat) prev.
Proof.
  intros Hf Hj. induction prev as [| r prev IH]; [reflexivity |].
  cbn. destruct (clauseIndex r =? index)%nat eqn:Hri.
  - apply Nat.eqb_eq in Hri. rewrite Hf.
    destruct (clauseIndex r =? j)%nat eqn:Hrj; [| exact IH].
    apply Nat.eqb_eq in Hrj. lia.
  - destruct (clauseIndex r =? j)%nat; [reflexivity | exact IH].
Qed.

Lemma find_map_same (index : nat) (f : ClauseResolution -> ClauseResolution)
    (prev : list ClauseResolution) :
  (forall r, clauseIndex (f r) = clauseIndex r) ->
  find (fun r => (clauseIndex r =? index)%nat)
    (map (fun r => if (clauseIndex r =? index)%nat then f r else r) prev)
  = option_map f (find (fun r => (clauseIndex r =? index)%nat) prev).
Proof.
  intros Hf. induction prev as [| r prev IH]; [reflexivity |].
  cbn. destruct (clauseIndex r =? index)%nat eqn:Hri.
  - rewrite Hf, Hri. reflexivity.
  - rewrite Hri. exact IH.
Qed.

Lemma find_snoc (p : ClauseResolution -> bool) (prev : list ClauseResolution)
    (r : ClauseResolution) :
  find p (prev ++ [r])
  = match find p prev with
    | Some x => Some x
    | None => if p r then Some r else None
    end.
Proof.
  induction prev as [| x prev IH]; [reflexivity |].
  cbn. destruct (p x); [reflexivity | exact IH].
Qed.

Lemma find_index (index : nat) (prev : list ClauseResolution)
    (r : ClauseResolution) :
  find (fun r => (clauseIndex r =? index)%nat) prev = Some r ->
  clauseIndex r = index.
Proof.
  intros H. apply find_some in H as [_ H]. now apply Nat.eqb_eq.
Qed.

Lemma updateResolution_same (index : nat) (c : Choice)
    (text : option jsstring) (prev : list ClauseResolution) :
  getResolution (updateResolution index c text prev) index
  = {| clauseIndex := index; choice := c; userText := text;
       isResolved := true |}.
Proof.
  unfold getResolution, updateResolution.
  destruct (find _ prev) as [r |] eqn:Hfind.
  - rewrite (find_map_same index
               (fun r => {| clauseIndex := clauseIndex r; choice := c;
                            userText := text; isResolved := true |}))
      by reflexivity.
    rewrite Hfind. cbn. now rewrite (find_index _ _ _ Hfind).
  - rewrite find_snoc, Hfind. cbn. now rewrite Nat.eqb_refl.
Qed.

Lemma updateResolution_other (index j : nat) (c : Choice)
    (text : option jsstring) (prev : list ClauseResolution) :
  j <> index ->
  getResolution (updateResolution index c text prev) j = getResolution prev j.
Proof.
  intros Hj. unfold getResolution, updateResolution.
  destruct (find (fun r => (clauseIndex r =? index)%nat) prev) eqn:Hfind.
  - rewrite (find_map_other index
               (fun r => {| clauseIndex := clauseIndex r; choice := c;
                            userText := text; isResolved := true |}))
      by (reflexivity || exact Hj).
    reflexivity.
  - rewrite find_snoc. cbn.
    destruct (find (fun r => (clauseIndex r =? j)%nat) prev); [reflexivity |].
    destruct (index =? j)%nat eqn:E; [| reflexivity].
    apply Nat.eqb_eq in E. lia.
Qed.

Lemma handleChoiceChange_same (index : nat) (c : Choice)
    (prev : list ClauseResolution) :
  getResolution (handleChoiceChange index c prev) index
  = {| clauseIndex := index; choice := c;
       userText := userText (getResolution prev index);
       isResolved := false |}.
Proof.
  unfold getResolution, handleChoiceChange.
  destruct (find _ prev) as [r |] eqn:Hfind.
  - rewrite (find_map_same index
               (fun r => {| clauseIndex := clauseIndex r; choice := c;
                            userText := userText r; isResolved := false |}))
      by reflexivity.
    rewrite Hfind. cbn. now rewrite (find_index _ _ _ Hfind).
  - rewrite find_snoc, Hfind. cbn. now rewrite Nat.eqb_refl.
Qed.

Lemma handleChoiceChange_other (index j : nat) (c : Choice)
    (prev : list ClauseResolution) :
  j <> index ->
  getResolution (handleChoiceChange index c prev) j = getResolution prev j.
Proof.
  intros Hj. unfold getResolution, handleChoiceChange.
  destruct (find (fun r => (clauseIndex r =? index)%nat) prev) eqn:Hfind.
  - rewrite (find_map_other index
               (fun r => {| clauseIndex := clauseIndex r; choice := c;
                            userText := userText r; isResolved := false |}))
      by (reflexivity || exact Hj).
    reflexivity.
  - rewrite find_snoc. cbn.
    destruct (find (fun r => (clauseIndex r =? j)%nat) prev); [reflexivity |].
    destruct (index =? j)%nat eqn:E; [| reflexivity].
    apply Nat.eqb_eq in E. lia.
Qed.

(** X21. Resolving a clause is read back as resolved with the given
    choice and text, whatever was recorded before, and leaves the
    resolution of every other clause as it was. *)
Theorem updateResolution_round_trip (index j : nat) (c : Choice)
    (text : option jsstring) (prev : list ClauseResolution) :
  j <> index ->
  getResolution (updateResolution index c text prev) index
  = {| clauseIndex := index; choice := c; userText := text;
       isResolved := true |}
  /\ getResolution (updateResolution index c text prev) j
     = getResolution prev j.
Proof.
  intros Hj. split.
  - apply updateResolution_same.
  - now apply updateResolution_other.
Qed.

Lemma updateResolution_round_trip_witness :
  2 <> 0
  /\ getResolution
       (updateResolution 0 original None
          [{| clauseIndex := 0; choice := user; userText := Some (lit "x");
              isResolved := true |}]) 0
     = {| clauseIndex := 0; choice := original; userText := None;
          isResolved := true |}
  /\ getResolution
       (updateResolution 0 original None
          [{| clauseIndex := 0; choice := user; userText := Some (lit "x");
              isResolved := true |}]) 2
     = getResolution
         [{| clauseIndex := 0; choice := user; userText := Some (lit "x");
             isResolved := true |}] 2.
Proof.
  split; [lia |].
  apply (updateResolution_round_trip 0 2 original None
           [{| clauseIndex := 0; choice := user; userText := Some (lit "x");
               isResolved := true |}]).
  lia.
Defined.

Lemma map_index_update (index : nat)
    (f : ClauseResolution -> ClauseResolution) (prev : list ClauseResolution) :
  (forall r, clauseIndex (f r) = clauseIndex r) ->
  map clauseIndex
    (map (fun r => if (clauseIndex r =? index)%nat then f r else r) prev)
  = map clauseIndex prev.
Proof.
  intros Hf. induction prev as [| r prev IH]; [reflexivity |].
  cbn. rewrite IH. destruct (clauseIndex r =? index)%nat; now rewrite ?Hf.
Qed.

Lemma find_None_index (index : nat) (prev : list ClauseResolution) :
  find (fun r => (clauseIndex r =? index)%nat) prev = None ->
  index ∉ map clauseIndex prev.
Proof.
  intros Hfind Hin. apply list_elem_of_fmap in Hin as (r & Hr & Hin).
  apply list_elem_of_In in Hin.
  pose proof (find_none _ _ Hfind r Hin) as H. cbn in H.
  apply Nat.eqb_neq in H. congruence.
Qed.

(** X22. Both updates keep at most one resolution per clause: if no
    clause index occurs twice before, none does after, and the list
    grows by one entry exactly when the clause had none. *)
Theorem resolutions_stay_distinct (index : nat) (c : Choice)
    (text : option jsstring) (prev : list ClauseResolution) :
  NoDup (map clauseIndex prev) ->
  NoDup (map clauseIndex (updateResolution index c text prev))
  /\ NoDup (map clauseIndex (handleChoiceChange index c prev))
  /\ length (updateResolution index c text prev)
     = (if bool_decide (index ∈ map clauseIndex prev)
        then length prev else S (length prev))
  /\ length (handleChoiceChange index c prev)
     = length (updateResolution index c text prev).
Proof.
  intros Hnd. unfold updateResolution, handleChoiceChange.
  destruct (find _ prev) as [r |] eqn:Hfind.
  - rewrite !map_index_update by reflexivity.
    rewrite !length_map.
    rewrite bool_decide_true; [auto |].
    apply list_elem_of_fmap. exists r. apply find_some in Hfind as [Hin Hr].
    apply Nat.eqb_eq in Hr. split; [now symmetry | now apply list_elem_of_In].
  - apply find_None_index in Hfind.
    rewrite !map_app, !length_app. cbn [map length clauseIndex].
    rewrite bool_decide_false by exact Hfind.
    assert (NoDup (map clauseIndex prev ++ [index])).
    { apply NoDup_app. split; [exact Hnd | split].
      - intros x Hx Hx'. apply list_elem_of_singleton in Hx'. now subst.
      - apply NoDup_singleton. }
    repeat split; try assumption; lia.
Qed.

Lemma resolutions_stay_distinct_witness :
  NoDup (map clauseIndex
           [{| clauseIndex := 3; choice := ai; userText := None;
               isResolved := false |}])
  /\ NoDup (map clauseIndex
              (updateResolution 1 user (Some (lit "x"))
                 [{| clauseIndex := 3; choice := ai; userText := None;
                     isResolved := false |}])).
Proof.
  assert (H : NoDup (map clauseIndex
                       [{| clauseIndex := 3; choice := ai; userText := None;
                           isResolved := false |}])).
  { cbn. apply NoDup_singleton. }
  split; [exact H |].
  exact (proj1 (resolutions_stay_distinct 1 user (Some (lit "x"))
                  [{| clauseIndex := 3; choice := ai; userText := None;
                      isResolved := false |}] H)).
Defined.

(** X23. Choosing an option and confirming it resolves the clause with
    that option, except that an own wording is only accepted once a
    non-empty text has been typed: without one the clause stays
    unresolved and the state is left as it was. *)
Theorem confirm_after_choice (index : nat) (c : Choice) (s : state) :
  let s' := confirmChoice index (choose index c s) in
  match c, typed_text s index with
  | user, None => s' = choose index c s
                  /\ isResolved (getResolution (resolutions s') index) = false
  | user, Some text =>
      getResolution (resolutions s') index
      = {| clauseIndex := index; choice := user; userText := Some text;
           isResolved := true |}
  | _, _ =>
      getResolution (resolutions s') index
      = {| clauseIndex := index; choice := c; userText := None;
           isResolved := true |}
  end.
Proof.
  cbv zeta. unfold confirmChoice.
  cbn [choose resolutions userInputs].
  rewrite handleChoiceChange_same. cbn [choice].
  unfold typed_text. cbn [choose userInputs].
  destruct c.
  - destruct (userInputs s !! index) as [[| ? ?] |];
      cbn [resolutions]; apply updateResolution_same.
  - destruct (userInputs s !! index) as [[| ? ?] |]; cbn [resolutions].
    + split; [reflexivity |]. cbn [choose resolutions].
      now rewrite handleChoiceChange_same.
    + apply updateResolution_same.
    + split; [reflexivity |]. cbn [choose resolutions].
      now rewrite handleChoiceChange_same.
  - destruct (userInputs s !! index) as [[| ? ?] |];
      cbn [resolutions]; apply updateResolution_same.
Qed.

Lemma typed_then_confirmed (index : nat) (text : jsstring) (s : state) :
  text <> [] ->
  let s' := confirmChoice index
              (choose index user (handleUserInputChange index text s)) in
  getResolution (resolutions s') index
  = {| clauseIndex := index; choice := user; userText := Some text;
       isResolved := true |}
  /\ userInputs s' !! index = Some text.
Proof.
  intros Ht. cbv zeta. unfold confirmChoice.
  cbn [choose handleUserInputChange resolutions userInputs].
  rewrite handleChoiceChange_same. cbn [choice].
  unfold typed_text. cbn [choose handleUserInputChange userInputs].
  rewrite lookup_insert_eq.
  destruct text as [| u text]; [contradiction |].
  cbn [resolutions userInputs]. split.
  - apply updateResolution_same.
  - apply lookup_insert_eq.
Qed.

(** X24. The final text of a clause with a non-empty text is never
    empty, whatever has been chosen or typed; and after typing a
    non-empty text, choosing the own wording and confirming, the final
    text is the typed text. *)
Theorem final_text (s : state) (c : ClauseAnalysis) (index : nat)
    (text : jsstring) :
  clauseText c <> [] ->
  text <> [] ->
  getFinalText s c index <> []
  /\ getFinalText
       (confirmChoice index
          (choose index user (handleUserInputChange index text s))) c index
     = text.
Proof.
  intros Hc Ht. split.
  - unfold getFinalText.
    destruct (choice _); [| | exact Hc].
    + destruct (suggestedRewrite c) as [[| ? ?] |]; cbn; [exact Hc | discriminate | exact Hc].
    + destruct (userInputs s !! index) as [[| ? ?] |]; cbn; [exact Hc | discriminate | exact Hc].
  - pose proof (typed_then_confirmed index text s Ht) as [Hres Hin].
    unfold getFinalText. rewrite Hres, Hin. cbn.
    destruct text; [contradiction | reflexivity].
Qed.

Lemma final_text_witness :
  getFinalText {| resolutions := []; userInputs := ∅ |}
    (DocumentView.sample_clause "pay rent") 0 <> []
  /\ getFinalText
       (confirmChoice 0
          (choose 0 user
             (handleUserInputChange 0 (lit "pay less")
                {| resolutions := []; userInputs := ∅ |})))
       (DocumentView.sample_clause "pay rent") 0
     = lit "pay less".
Proof.
  apply (final_text {| resolutions := []; userInputs := ∅ |}
           (DocumentView.sample_clause "pay rent") 0 (lit "pay less"));
    discriminate.
Defined.

End NegotiateFacts.
